(** * Minimax-regret portfolio selection (src/support.py)

    A shallow embedding of [support.py].  Python floats are modelled as
    rationals [Q], with exact arithmetic: the rounding of IEEE doubles is
    not modelled, so a value computed here is the exact value of the
    expression the code evaluates, which the float result approximates
    (e.g. [(1 - 0.7) * 1 + 0.7 * 2] is [1.7] here and [1.7000000000000002]
    in Python); [-math.inf] (the only non-finite value the code produces)
    is the constructor [NegInf] of [ext].  Python dicts keyed by scenario
    name are association lists in insertion order.  Initiative records are
    Python dicts shared by reference: the caller's list is a list of
    references into a heap, so that the in-place augmentation done by
    [calculate_effective_returns] is visible to the caller.  The external
    PuLP/CBC solver is an oracle [cbc : lp_problem -> solve_outcome]; every
    call to it is recorded in a solve log, a ghost component of the state. *)

From Stdlib Require Import QArith Lqa List String Bool Lia PeanoNat.
Import ListNotations.
Open Scope Q_scope.

(** ** Scenarios and dicts keyed by scenario *)

Inductive scenario := Best | Med | Worst.

Definition scenario_eqb (a b : scenario) : bool :=
  match a, b with
  | Best, Best | Med, Med | Worst, Worst => true
  | _, _ => false
  end.

Definition scenario_name (s : scenario) : string :=
  match s with Best => "best" | Med => "med" | Worst => "worst" end.

(** [scenarios = ['best', 'med', 'worst']] *)
Definition scenarios : list scenario := [Best; Med; Worst].

(** A Python dict whose keys are scenario names, in insertion order. *)
Definition dict (A : Type) := list (scenario * A).

Fixpoint dict_get {A} (d : dict A) (k : scenario) : option A :=
  match d with
  | [] => None
  | (k', v) :: d' => if scenario_eqb k k' then Some v else dict_get d' k
  end.

(** [d[k] = v]: overwrite in place, or append a new key at the end. *)
Fixpoint dict_set {A} (d : dict A) (k : scenario) (v : A) : dict A :=
  match d with
  | [] => [(k, v)]
  | (k', v') :: d' =>
      if scenario_eqb k k' then (k', v) :: d' else (k', v') :: dict_set d' k v
  end.

(** Floats as the code uses them: finite, or [-math.inf]. *)
Inductive ext := Fin (q : Q) | NegInf.

(** Python's [a - b] with [a] possibly [-inf] and [b] finite. *)
Definition ext_sub (a : ext) (b : Q) : ext :=
  match a with Fin x => Fin (x - b) | NegInf => NegInf end.

Definition is_neginf (a : ext) : bool :=
  match a with NegInf => true | Fin _ => false end.

(** ** Initiative records (Python dicts) *)

(** The input keys [id, cost, confidence, R_best, R_med, R_worst] and the two
    keys the pipeline adds, absent ([None]) until then. *)
Record initiative := mkInitiative {
  i_id : string;
  cost : Q;
  confidence : Q;
  R_best : Q;
  R_med : Q;
  R_worst : Q;
  gamma : option Q;
  effective_returns : option (dict Q)
}.

(** The raw fields of a record, those the caller supplies. *)
Definition raw_fields (i : initiative) : string * Q * Q * Q * Q * Q :=
  (i_id i, cost i, confidence i, R_best i, R_med i, R_worst i).

Definition set_gamma (i : initiative) (g : Q) : initiative :=
  mkInitiative (i_id i) (cost i) (confidence i) (R_best i) (R_med i) (R_worst i)
    (Some g) (effective_returns i).

Definition set_effective_returns (i : initiative) (e : dict Q) : initiative :=
  mkInitiative (i_id i) (cost i) (confidence i) (R_best i) (R_med i) (R_worst i)
    (gamma i) (Some e).

(** ** Exceptions *)

Inductive exn :=
| ValueError (msg : string)
| TypeError (msg : string)
| KeyError (key : string)
| OtherError (msg : string)  (** raised by a user-supplied penalty function *)
| DanglingRef.               (** a reference outside the heap: cannot arise in Python *)

(** ** The LP problems handed to the solver (PuLP) *)

(** The PuLP variables: [Select_<id>] from [LpVariable.dicts("Select", ids)]
    and [Max_Regret] ([theta]). *)
Inductive lpvar := Select (id : string) | Max_Regret.

Definition lpvar_eqb (a b : lpvar) : bool :=
  match a, b with
  | Select x, Select y => String.eqb x y
  | Max_Regret, Max_Regret => true
  | _, _ => false
  end.

(** An [LpAffineExpression]: its terms, one per variable, in insertion order. *)
Definition affine := list (lpvar * Q).

(** [var * c]: PuLP's [LpAffineExpression.__mul__] keeps no term when the
    constant is [0] (it only copies the terms under [elif other != 0]). *)
Definition lp_mul (v : lpvar) (c : Q) : affine :=
  if Qeq_bool c 0 then [] else [(v, c)].

(** [addInPlace] of one term: coefficients of the same variable are added
    (the key is kept even when the sum is [0]), new variables appended. *)
Fixpoint aff_add_term (e : affine) (t : lpvar * Q) : affine :=
  match e with
  | [] => [t]
  | (v', c') :: e' =>
      if lpvar_eqb (fst t) v' then (v', c' + snd t) :: e'
      else (v', c') :: aff_add_term e' t
  end.

Definition aff_add (e1 e2 : affine) : affine := fold_left aff_add_term e2 e1.

(** [lp.lpSum(es)] *)
Definition lpSum (es : list affine) : affine := fold_left aff_add es [].

Inductive csense := LE | GE.

Record lp_constraint := mkConstraint {
  c_expr : affine;
  c_sense : csense;
  c_rhs : ext
}.

Inductive osense := LpMaximize | LpMinimize.

Record lp_problem := mkProblem {
  p_name : string;
  p_sense : osense;
  p_binaries : list lpvar;        (** variables declared [LpBinary] *)
  p_nonneg : list lpvar;          (** continuous variables with [lowBound=0] *)
  p_objective : affine;
  p_constraints : list lp_constraint
}.

(** PuLP's status codes and [lp.LpStatus]. *)
Inductive lp_status :=
| LpStatusNotSolved | LpStatusOptimal | LpStatusInfeasible
| LpStatusUnbounded | LpStatusUndefined.

Definition LpStatus (s : lp_status) : string :=
  match s with
  | LpStatusNotSolved => "Not Solved"
  | LpStatusOptimal => "Optimal"
  | LpStatusInfeasible => "Infeasible"
  | LpStatusUnbounded => "Unbounded"
  | LpStatusUndefined => "Undefined"
  end.

Definition is_optimal (s : lp_status) : bool :=
  match s with LpStatusOptimal => true | _ => false end.

(** What [prob.solve(lp.PULP_CBC_CMD(msg=False))] does: raise, or set
    [prob.status] and the [varValue] of the variables ([None] where unset). *)
Inductive solve_outcome :=
| SolveRaised (msg : string)
| SolveDone (st : lp_status) (varValue : lpvar -> option Q).

(** [LpAffineExpression.value()]: [None] as soon as one variable has no
    value, else the constant ([0] here) plus the weighted values. *)
Definition affine_value (e : affine) (vals : lpvar -> option Q) : option Q :=
  fold_left (fun acc t =>
    match acc, vals (fst t) with
    | Some s, Some x => Some (s + x * snd t)
    | _, _ => None
    end) e (Some 0).

(** [lp.value(prob.objective)] after a solve.  Before solving, PuLP's
    [fixObjective] adds a variable [__dummy] to an objective with no term
    ([isNumericalConstant]); [restoreObjective] subtracts it again, which
    leaves the term [__dummy * 0] in the objective, and [assignVarsVals]
    never sets the [varValue] of [__dummy]: the value is then [None]. *)
Definition objective_value (e : affine) (vals : lpvar -> option Q) : option Q :=
  match e with
  | [] => None
  | _ :: _ => affine_value e vals
  end.

(** ** The state monad with exceptions *)

Inductive solve_call :=
| IdealSolve (s : scenario) (p : lp_problem)
| MainSolve (p : lp_problem).

Record state := mkState {
  heap : list initiative;       (** the dict objects, by reference *)
  solve_log : list solve_call   (** solver invocations, latest first *)
}.

(** A computation runs on a state and ends with the state it leaves behind
    (also when it raises: mutations done before a raise persist). *)
Definition M (A : Type) := state -> state * (exn + A).

Definition ret {A} (a : A) : M A := fun s => (s, inr a).

Definition bind {A B} (m : M A) (k : A -> M B) : M B :=
  fun s => match m s with
           | (s', inl e) => (s', inl e)
           | (s', inr a) => k a s'
           end.

Notation "x <- m ;; k" := (bind m (fun x => k))
  (at level 61, m at next level, right associativity).

Definition throw {A} (e : exn) : M A := fun s => (s, inl e).

Definition lift {A} (r : exn + A) : M A := fun s => (s, r).

Fixpoint replace_nth {A} (l : list A) (n : nat) (x : A) : list A :=
  match l, n with
  | [], _ => []
  | _ :: l', O => x :: l'
  | y :: l', S n' => y :: replace_nth l' n' x
  end.

(** Dereference a dict. *)
Definition load (r : nat) : M initiative :=
  fun s => match nth_error (heap s) r with
           | Some i => (s, inr i)
           | None => (s, inl DanglingRef)
           end.

(** Write a dict back (in-place mutation of the object at [r]). *)
Definition store (r : nat) (i : initiative) : M unit :=
  fun s => (mkState (replace_nth (heap s) r i) (solve_log s), inr tt).

(** Invoke the solver, recording the call. *)
Definition call_solver (cbc : lp_problem -> solve_outcome)
    (c : solve_call) (p : lp_problem) : M solve_outcome :=
  fun s => (mkState (heap s) (c :: solve_log s), inr (cbc p)).

Fixpoint mapM {A B} (f : A -> M B) (l : list A) : M (list B) :=
  match l with
  | [] => ret []
  | x :: l' => y <- f x ;; ys <- mapM f l' ;; ret (y :: ys)
  end.

(** ** calculate_gamma *)

Definition calculate_gamma (confidence_score : Q) : exn + Q :=
  if negb (Qle_bool 0 confidence_score && Qle_bool confidence_score 1)
  then inl (ValueError "Confidence score must be between 0 and 1.")
  else inr (1 - confidence_score).

(** ** calculate_effective_returns *)

(** [R_base_map[scenario_name]] *)
Definition R_base (i : initiative) (s : scenario) : Q :=
  match s with Best => R_best i | Med => R_med i | Worst => R_worst i end.

(** The inner loop: [effective_returns[s] = (1 - gamma_i) * R_ij_base
    + gamma_i * initiative['R_worst']] for each scenario, into [{}]
    (evaluated exactly, without float rounding). *)
Definition effective_returns_of (gamma_i : Q) (i : initiative) : dict Q :=
  fold_left (fun d s => dict_set d s ((1 - gamma_i) * R_base i s + gamma_i * R_worst i))
    scenarios [].

Definition process_initiative (confidence_penalty_func : Q -> exn + Q) (r : nat) : M unit :=
  i <- load r ;;
  gamma_i <- lift (confidence_penalty_func (confidence i)) ;;
  _ <- store r (set_gamma i gamma_i) ;;
  i' <- load r ;;
  store r (set_effective_returns i' (effective_returns_of gamma_i i')).

Fixpoint for_each (f : nat -> M unit) (l : list nat) : M unit :=
  match l with
  | [] => ret tt
  | r :: l' => _ <- f r ;; for_each f l'
  end.

Definition calculate_effective_returns (confidence_penalty_func : Q -> exn + Q)
    (initiatives : list nat) : M (list nat) :=
  _ <- for_each (process_initiative confidence_penalty_func) initiatives ;;
  ret initiatives.

(** [initiative['effective_returns'][scenario_name]] *)
Definition eff_lookup (i : initiative) (s : scenario) : exn + Q :=
  match effective_returns i with
  | None => inl (KeyError "effective_returns")
  | Some d => match dict_get d s with
              | None => inl (KeyError (scenario_name s))
              | Some v => inr v
              end
  end.

Fixpoint mapE {A B} (f : A -> exn + B) (l : list A) : exn + list B :=
  match l with
  | [] => inr []
  | x :: l' => match f x with
               | inl e => inl e
               | inr y => match mapE f l' with
                          | inl e => inl e
                          | inr ys => inr (y :: ys)
                          end
               end
  end.

(** ** calculate_optimal_scenario_returns *)

(** The knapsack of one scenario: maximise
    [lpSum(y[id] * effective_returns[s])] subject to
    [lpSum(y[id] * cost) <= total_budget], [y] binary. *)
Definition build_ideal_problem (initiatives : list initiative) (s : scenario)
    (total_budget : Q) : exn + lp_problem :=
  match mapE (fun i => match eff_lookup i s with
                       | inl e => inl e
                       | inr v => inr (lp_mul (Select (i_id i)) v)
                       end) initiatives with
  | inl e => inl e
  | inr obj_terms =>
      inr (mkProblem ("Optimal_Return_Scenario_" ++ scenario_name s) LpMaximize
             (map (fun i => Select (i_id i)) initiatives) []
             (lpSum obj_terms)
             [mkConstraint (lpSum (map (fun i => lp_mul (Select (i_id i)) (cost i)) initiatives))
                LE (Fin total_budget)])
  end.

Definition format_none_error : exn :=
  TypeError "unsupported format string passed to NoneType.__format__".

(** The loop over [scenarios]; [V_j_star[s]] is [-inf] when the solve raises
    or its status is not [Optimal], else [lp.value(prob_scenario.objective)],
    which the [print] then formats with [:.2f]. *)
Fixpoint scenario_loop (cbc : lp_problem -> solve_outcome) (initiatives : list nat)
    (total_budget : Q) (ss : list scenario) (V_j_star : dict ext) : M (dict ext) :=
  match ss with
  | [] => ret V_j_star
  | s :: ss' =>
      inits <- mapM load initiatives ;;
      prob_scenario <- lift (build_ideal_problem inits s total_budget) ;;
      out <- call_solver cbc (IdealSolve s prob_scenario) prob_scenario ;;
      match out with
      | SolveRaised _ =>
          scenario_loop cbc initiatives total_budget ss' (dict_set V_j_star s NegInf)
      | SolveDone st vals =>
          if is_optimal st then
            match objective_value (p_objective prob_scenario) vals with
            | Some v =>
                scenario_loop cbc initiatives total_budget ss' (dict_set V_j_star s (Fin v))
            | None => throw format_none_error
            end
          else scenario_loop cbc initiatives total_budget ss' (dict_set V_j_star s NegInf)
      end
  end.

Definition calculate_optimal_scenario_returns (cbc : lp_problem -> solve_outcome)
    (initiatives : list nat) (total_budget : Q) : M (dict ext) :=
  scenario_loop cbc initiatives total_budget scenarios [].

(** ** solve_minimax_regret_optimization *)

Record result := mkResult {
  status : string;
  min_max_regret : option Q;
  selected_initiatives : list string;
  total_cost : Q;
  total_actual_returns : dict Q;
  v_j_star : dict ext;
  regrets_for_selected_portfolio : dict ext
}.

(** [{'best': 0, 'med': 0, 'worst': 0}] *)
Definition zero_returns : dict Q := [(Best, 0); (Med, 0); (Worst, 0)].
Definition zero_regrets : dict ext := [(Best, Fin 0); (Med, Fin 0); (Worst, Fin 0)].

(** The three early-return dicts. *)
Definition failure_result (st : string) (V_j_star : dict ext) : result :=
  mkResult st None [] 0 zero_returns V_j_star [].

Definition no_eligible_result : result := failure_result "No Eligible Initiatives" [].

(** [[i for i in initiatives_data if i['confidence'] >= min_confidence_threshold]] *)
Fixpoint filter_eligible (min_confidence_threshold : Q) (l : list nat) : M (list nat) :=
  match l with
  | [] => ret []
  | r :: l' =>
      i <- load r ;;
      rest <- filter_eligible min_confidence_threshold l' ;;
      ret (if Qle_bool min_confidence_threshold (confidence i) then r :: rest else rest)
  end.

(** [theta >= V_j_star[s] - lpSum(x[id] * effective_returns[s])], kept as
    [theta + lpSum(...) >= V_j_star[s]]. *)
Definition theta_row (inits : list initiative) (V_j_star : dict ext) (s : scenario)
    : exn + lp_constraint :=
  match dict_get V_j_star s with
  | None => inl (KeyError (scenario_name s))
  | Some v =>
      match mapE (fun i => match eff_lookup i s with
                           | inl e => inl e
                           | inr c => inr (lp_mul (Select (i_id i)) c)
                           end) inits with
      | inl e => inl e
      | inr ts => inr (mkConstraint (aff_add [(Max_Regret, 1)] (lpSum ts)) GE v)
      end
  end.

Definition build_main_problem (inits : list initiative) (V_j_star : dict ext)
    (total_budget min_portfolio_worst_return : Q) : exn + lp_problem :=
  match mapE (theta_row inits V_j_star) scenarios with
  | inl e => inl e
  | inr rows =>
      inr (mkProblem "Minimax_Regret_Investment_Portfolio" LpMinimize
             (map (fun i => Select (i_id i)) inits) [Max_Regret]
             [(Max_Regret, 1)]
             (rows ++
              [mkConstraint (lpSum (map (fun i => lp_mul (Select (i_id i)) (cost i)) inits))
                 LE (Fin total_budget);
               mkConstraint (lpSum (map (fun i => lp_mul (Select (i_id i)) (R_worst i)) inits))
                 GE (Fin min_portfolio_worst_return)]))
  end.

(** One pass of [for scenario_name in scenarios:
       total_actual_returns[scenario_name] += i['effective_returns'][scenario_name]] *)
Definition add_return_step (i : initiative) (acc : exn + dict Q) (s : scenario) : exn + dict Q :=
  match acc with
  | inl e => inl e
  | inr t =>
      match dict_get t s with
      | None => inl (KeyError (scenario_name s))
      | Some a => match eff_lookup i s with
                  | inl e => inl e
                  | inr b => inr (dict_set t s (a + b))
                  end
      end
  end.

Definition add_returns (i : initiative) (tar : dict Q) : exn + dict Q :=
  fold_left (add_return_step i) scenarios (inr tar).

Definition Qltb (a b : Q) : bool := negb (Qle_bool b a).

Definition none_gt_error : exn :=
  TypeError "'>' not supported between instances of 'NoneType' and 'float'".

(** [for i in processed_initiatives: if x[i['id']].varValue > 0.5: ...]
    (the sums [total_cost] and [total_actual_returns] accumulated exactly,
    without float rounding). *)
Fixpoint select_loop (vals : lpvar -> option Q) (l : list nat)
    (sel : list string) (tc : Q) (tar : dict Q) : M (list string * Q * dict Q) :=
  match l with
  | [] => ret (sel, tc, tar)
  | r :: l' =>
      i <- load r ;;
      match vals (Select (i_id i)) with
      | None => throw none_gt_error
      | Some x =>
          if Qltb (1 # 2) x then
            tar' <- lift (add_returns i tar) ;;
            select_loop vals l' (sel ++ [i_id i]) (tc + cost i) tar'
          else select_loop vals l' sel tc tar
      end
  end.

(** One pass of [regrets[s] = V_j_star[s] - total_actual_returns[s]]. *)
Definition regret_step (V_j_star : dict ext) (tar : dict Q) (acc : exn + dict ext)
    (s : scenario) : exn + dict ext :=
  match acc with
  | inl e => inl e
  | inr g =>
      match dict_get V_j_star s, dict_get tar s with
      | Some v, Some t => inr (dict_set g s (ext_sub v t))
      | None, _ | _, None => inl (KeyError (scenario_name s))
      end
  end.

Definition regrets_of (V_j_star : dict ext) (tar : dict Q) (reg : dict ext) : exn + dict ext :=
  fold_left (regret_step V_j_star tar) scenarios (inr reg).

(** Lines 115-141: the result of a solve that did not raise. *)
Definition assemble (prob : lp_problem) (st : lp_status) (vals : lpvar -> option Q)
    (processed : list nat) (V_j_star : dict ext) : M result :=
  let mmr := if is_optimal st then affine_value (p_objective prob) vals else None in
  if is_optimal st then
    acc <- select_loop vals processed [] 0 zero_returns ;;
    let '(sel, tc, tar) := acc in
    reg <- lift (regrets_of V_j_star tar zero_regrets) ;;
    ret (mkResult (LpStatus st) mmr sel tc tar V_j_star reg)
  else ret (mkResult (LpStatus st) mmr [] 0 zero_returns V_j_star zero_regrets).

Definition solve_minimax_regret_optimization (cbc : lp_problem -> solve_outcome)
    (initiatives_data : list nat) (total_budget min_confidence_threshold
     min_portfolio_worst_return : Q) (confidence_penalty_func : Q -> exn + Q) : M result :=
  eligible_initiatives <- filter_eligible min_confidence_threshold initiatives_data ;;
  match eligible_initiatives with
  | [] => ret no_eligible_result
  | _ :: _ =>
      processed <- calculate_effective_returns confidence_penalty_func eligible_initiatives ;;
      V_j_star <- calculate_optimal_scenario_returns cbc processed total_budget ;;
      if existsb (fun kv => is_neginf (snd kv)) V_j_star
      then ret (failure_result "Error in V_j_star calculation" V_j_star)
      else
        inits <- mapM load processed ;;
        prob <- lift (build_main_problem inits V_j_star total_budget min_portfolio_worst_return) ;;
        out <- call_solver cbc (MainSolve prob) prob ;;
        match out with
        | SolveRaised e => ret (failure_result ("Error solving main problem: " ++ e) V_j_star)
        | SolveDone st vals => assemble prob st vals processed V_j_star
        end
  end.

(** A run on the caller's heap, with an empty solve log. *)
Definition run (cbc : lp_problem -> solve_outcome) (h : list initiative)
    (initiatives_data : list nat) (total_budget min_confidence_threshold
     min_portfolio_worst_return : Q) (confidence_penalty_func : Q -> exn + Q)
    : state * (exn + result) :=
  solve_minimax_regret_optimization cbc initiatives_data total_budget
    min_confidence_threshold min_portfolio_worst_return confidence_penalty_func
    (mkState h []).

(** ** Vocabulary of the statements *)

(** The record [calculate_effective_returns] leaves at a reference whose dict
    was [i], when the penalty model gives [g]. *)
Definition augment (i : initiative) (g : Q) : initiative :=
  set_effective_returns (set_gamma i g) (effective_returns_of g (set_gamma i g)).

(** The comprehension's test [i['confidence'] >= min_confidence_threshold]
    on the record at reference [k]. *)
Definition is_eligible (min_confidence_threshold : Q) (h : list initiative) (k : nat) : bool :=
  match nth_error h k with
  | Some i => Qle_bool min_confidence_threshold (confidence i)
  | None => false
  end.

Definition valid_ref (h : list initiative) (k : nat) : Prop := nth_error h k <> None.

(** The records behind a list of references. *)
Fixpoint deref (h : list initiative) (l : list nat) : list initiative :=
  match l with
  | [] => []
  | k :: l' => match nth_error h k with
               | Some i => i :: deref h l'
               | None => deref h l'
               end
  end.

(** [x[i['id']].varValue > 0.5] *)
Definition chosen (vals : lpvar -> option Q) (i : initiative) : bool :=
  match vals (Select (i_id i)) with Some x => Qltb (1 # 2) x | None => false end.

Fixpoint sumQ (l : list Q) : Q :=
  match l with [] => 0 | x :: l' => x + sumQ l' end.

(** Every reference points to a dict (always so in Python). *)
Definition refs_valid (h : list initiative) (l : list nat) : bool :=
  forallb (fun k => match nth_error h k with Some _ => true | None => false end) l.

Definition is_main_call (c : solve_call) : bool :=
  match c with MainSolve _ => true | IdealSolve _ _ => false end.

(** A computation that leaves the heap as it found it. *)
Definition pres {A} (m : M A) : Prop := forall s, heap (fst (m s)) = heap s.

(** The status set of the Result as the spec lists it: Optimal, Infeasible,
    Unbounded, Undefined, No-Eligible-Initiatives, Error. *)
Definition spec_status_tags : list string :=
  ["Optimal"%string; "Infeasible"%string; "Unbounded"%string; "Undefined"%string; "No Eligible Initiatives"%string].

Definition in_spec_status_set (st : string) : bool :=
  existsb (String.eqb st) spec_status_tags || String.prefix "Error" st.

(** The statuses the code can return: the five strings of [lp.LpStatus], the
    two early-return strings, and the message of a raising main solve. *)
Definition code_status_tags : list string :=
  ["Optimal"%string; "Not Solved"%string; "Infeasible"%string; "Unbounded"%string; "Undefined"%string;
   "No Eligible Initiatives"%string; "Error in V_j_star calculation"%string].

Definition in_code_status_set (st : string) : bool :=
  existsb (String.eqb st) code_status_tags || String.prefix "Error solving main problem: " st.

(** ** Concrete inputs *)

(** The three initiatives of the spec's end-to-end scenario. *)
Definition init_A : initiative := mkInitiative "A" 10 1 100 80 50 None None.
Definition init_B : initiative := mkInitiative "B" 10 (1 # 2) 90 60 40 None None.
Definition init_C : initiative := mkInitiative "C" 5 (1 # 5) 70 50 30 None None.
Definition example_heap : list initiative := [init_A; init_B; init_C].
Definition example_refs : list nat := [0; 1; 2]%nat.

(** A solver that answers [Optimal] with [A] selected and [theta = 0]: the
    exact answer on every problem of the end-to-end scenario. *)
Definition cbc_select_A (p : lp_problem) : solve_outcome :=
  SolveDone LpStatusOptimal (fun v => match v with
                                      | Select x => if String.eqb x "A" then Some 1 else Some 0
                                      | Max_Regret => Some 0
                                      end).

(** As above on the scenario knapsacks, but CBC stops without a solution on
    the minimax problem (PuLP maps CBC's "Stopped" to [LpStatusNotSolved]). *)
Definition cbc_main_not_solved (p : lp_problem) : solve_outcome :=
  match p_sense p with
  | LpMaximize => cbc_select_A p
  | LpMinimize => SolveDone LpStatusNotSolved (fun _ => None)
  end.

(** As [cbc_select_A], but the solve of the scenario [best] raises. *)
Definition cbc_best_raises (p : lp_problem) : solve_outcome :=
  if String.eqb (p_name p) "Optimal_Return_Scenario_best"
  then SolveRaised "PulpSolverError" else cbc_select_A p.

(** ** Meaning of the LP problems *)

(** The value of an affine expression under a total assignment. *)
Definition aff_eval (e : affine) (x : lpvar -> Q) : Q :=
  fold_right (fun t acc => x (fst t) * snd t + acc) 0 e.

Definition satisfies (x : lpvar -> Q) (c : lp_constraint) : Prop :=
  match c_rhs c, c_sense c with
  | Fin r, LE => aff_eval (c_expr c) x <= r
  | Fin r, GE => r <= aff_eval (c_expr c) x
  | NegInf, LE => False
  | NegInf, GE => True
  end.

(** A point of the feasible region: binaries at 0 or 1, [lowBound=0]
    variables non-negative, every constraint met. *)
Definition feasible (p : lp_problem) (x : lpvar -> Q) : Prop :=
  (forall v, In v (p_binaries p) -> x v == 0 \/ x v == 1) /\
  (forall v, In v (p_nonneg p) -> 0 <= x v) /\
  (forall c, In c (p_constraints p) -> satisfies x c).

(** An optimal point of the problem. *)
Definition lp_optimal (p : lp_problem) (x : lpvar -> Q) : Prop :=
  feasible p x /\
  forall y, feasible p y ->
    match p_sense p with
    | LpMaximize => aff_eval (p_objective p) y <= aff_eval (p_objective p) x
    | LpMinimize => aff_eval (p_objective p) x <= aff_eval (p_objective p) y
    end.

(** The variables PuLP hands to CBC ([LpProblem.variables()]): those with a
    term in the objective or in a constraint. *)
Definition problem_vars (p : lp_problem) : list lpvar :=
  map fst (p_objective p) ++ flat_map (fun c => map fst (c_expr c)) (p_constraints p).

(** A CBC run that finds the point [pulp_point]: PuLP writes back a [varValue] only for
    the variables of the problem; a variable declared with
    [LpVariable.dicts] but absent from every expression keeps [None]. *)
Definition pulp_point (v : lpvar) : Q :=
  match v with Max_Regret => 0 | Select _ => 1 end.

Definition cbc_pulp (p : lp_problem) : solve_outcome :=
  SolveDone LpStatusOptimal (fun v =>
    if existsb (lpvar_eqb v) (problem_vars p) then Some (pulp_point v) else None).

Definition call_problem (c : solve_call) : lp_problem :=
  match c with IdealSolve _ p => p | MainSolve p => p end.

(** Two initiatives of confidence [1.0]; [A] has cost [0] and all returns
    [0], so no expression of either problem has a term in [Select_A]. *)
Definition zero_A : initiative := mkInitiative "A" 0 1 0 0 0 None None.
Definition unit_B : initiative := mkInitiative "B" 1 1 1 1 1 None None.
Definition zero_heap : list initiative := [zero_A; unit_B].

(** An initiative of cost [0], already processed ([gamma = 0]). *)
Definition free_A : initiative :=
  mkInitiative "A" 0 1 10 5 2 (Some 0) (Some [(Best, 10); (Med, 5); (Worst, 2)]).
Definition free_heap : list initiative := [free_A].

(** A processed initiative of cost [1]. *)
Definition paid_A : initiative :=
  mkInitiative "A" 1 1 10 5 2 (Some 0) (Some [(Best, 10); (Med, 5); (Worst, 2)]).
Definition paid_heap : list initiative := [paid_A].

(** Solvers answering [Optimal] with every variable at [1], resp. at [0]. *)
Definition cbc_all_one (p : lp_problem) : solve_outcome :=
  SolveDone LpStatusOptimal (fun _ => Some 1).
Definition cbc_all_zero (p : lp_problem) : solve_outcome :=
  SolveDone LpStatusOptimal (fun _ => Some 0).

(** ** Vocabulary of the further properties *)

(** [effective_returns[s]] of a processed record, [0] where it is missing. *)
Definition eff_val (i : initiative) (s : scenario) : Q :=
  match eff_lookup i s with inr v => v | inl _ => 0 end.

(** What [V_j_star[s]] becomes after the solve of scenario [s]: [-inf] when
    the solve raises or its status is not [Optimal], else the value of the
    objective. *)
Definition ideal_entry (o : solve_outcome) (obj : affine) (v : ext) : Prop :=
  match o with
  | SolveRaised _ => v = NegInf
  | SolveDone st vals =>
      if is_optimal st then exists q, objective_value obj vals = Some q /\ v = Fin q
      else v = NegInf
  end.

(** The values a solve writes back agree with the point [x] wherever set. *)
Definition reports_point (vals : lpvar -> option Q) (x : lpvar -> Q) : Prop :=
  forall v q, vals v = Some q -> q == x v.

(** A solver whose [Optimal] answers are feasible points. *)
Definition sound_solver (cbc : lp_problem -> solve_outcome) : Prop :=
  forall p st vals, cbc p = SolveDone st vals -> is_optimal st = true ->
    exists x, feasible p x /\ reports_point vals x.

(** A solver whose [Optimal] answers are optimal points. *)
Definition exact_solver (cbc : lp_problem -> solve_outcome) : Prop :=
  forall p st vals, cbc p = SolveDone st vals -> is_optimal st = true ->
    exists x, lp_optimal p x /\ reports_point vals x.

(** ** Inputs of the instances of the further properties *)

Definition satisfiesb (x : lpvar -> Q) (c : lp_constraint) : bool :=
  match c_rhs c, c_sense c with
  | Fin r, LE => Qle_bool (aff_eval (c_expr c) x) r
  | Fin r, GE => Qle_bool r (aff_eval (c_expr c) x)
  | NegInf, LE => false
  | NegInf, GE => true
  end.

Definition feasibleb (p : lp_problem) (x : lpvar -> Q) : bool :=
  forallb (fun v => Qeq_bool (x v) 0 || Qeq_bool (x v) 1) (p_binaries p) &&
  forallb (fun v => Qle_bool 0 (x v)) (p_nonneg p) &&
  forallb (satisfiesb x) (p_constraints p).

(** No objective term can improve on the point [0]: each term's variable is
    bounded below by [0] and its coefficient points away from the
    direction of optimisation. *)
Definition zero_optimalb (p : lp_problem) : bool :=
  forallb (fun t => existsb (lpvar_eqb (fst t)) (p_binaries p ++ p_nonneg p) &&
                    match p_sense p with
                    | LpMaximize => Qle_bool (snd t) 0
                    | LpMinimize => Qle_bool 0 (snd t)
                    end)
          (p_objective p).

(** A solver answering [Optimal] with every variable at [0] when that point
    is feasible and optimal by [zero_optimalb], and [Undefined] otherwise. *)
Definition cbc_zero (p : lp_problem) : solve_outcome :=
  if feasibleb p (fun _ => 0) && zero_optimalb p
  then SolveDone LpStatusOptimal (fun _ => Some 0)
  else SolveDone LpStatusUndefined (fun _ => None).

(** An initiative of confidence [1.0] whose returns are all losses, already
    processed ([gamma = 0]). *)
Definition loss_D : initiative :=
  mkInitiative "D" 5 1 (-10) (-20) (-30) (Some 0) (Some [(Best, -10); (Med, -20); (Worst, -30)]).
Definition loss_heap : list initiative := [loss_D].

(** A processed initiative of cost 1 whose effective returns are all 0. *)
Definition zero_paid_A : initiative :=
  mkInitiative "A" 1 1 0 0 0 (Some 0) (Some [(Best, 0); (Med, 0); (Worst, 0)]).
Definition zero_paid_heap : list initiative := [zero_paid_A].

(** An initiative of confidence [2.0] (outside [[0,1]]) before [B]
    (confidence [0.5]). *)
Definition overconfident_A : initiative := mkInitiative "A" 10 2 100 80 50 None None.
Definition penalty_heap : list initiative := [overconfident_A; init_B].

(** [A] next to an initiative whose confidence [2.0] is outside [[0,1]]. *)
Definition overconfident_B : initiative := mkInitiative "B" 10 2 90 60 40 None None.
Definition mixed_heap : list initiative := [init_A; overconfident_B].

(** * Proofs *)

(** ** Lists, dicts and the monad *)

Lemma nth_error_replace_nth_eq {A} (l : list A) n x :
  (n < List.length l)%nat -> nth_error (replace_nth l n x) n = Some x.
Proof.
  revert n; induction l as [|y l IH]; intros [|n] Hn; simpl in *; try lia; auto.
  apply IH; lia.
Qed.

Lemma nth_error_replace_nth_neq {A} (l : list A) n m x :
  m <> n -> nth_error (replace_nth l n x) m = nth_error l m.
Proof.
  revert n m; induction l as [|y l IH]; intros [|n] [|m] Hmn; simpl; auto; try lia.
Qed.

Lemma nth_error_Some_lt {A} (l : list A) n x : nth_error l n = Some x -> (n < List.length l)%nat.
Proof. intros H. apply nth_error_Some. congruence. Qed.

Lemma scenario_eqb_spec a b : scenario_eqb a b = true <-> a = b.
Proof. destruct a, b; simpl; split; congruence. Qed.

Lemma dict_get_set {A} (d : dict A) k v k' :
  dict_get (dict_set d k v) k' = if scenario_eqb k' k then Some v else dict_get d k'.
Proof.
  induction d as [|[k0 v0] d IH]; simpl.
  - reflexivity.
  - destruct (scenario_eqb k k0) eqn:E.
    + apply scenario_eqb_spec in E; subst k0. simpl.
      destruct (scenario_eqb k' k); reflexivity.
    + simpl. rewrite IH.
      destruct (scenario_eqb k' k) eqn:E1; [|reflexivity].
      apply scenario_eqb_spec in E1; subst k'. rewrite E. reflexivity.
Qed.

Lemma bind_inr {A B} (m : M A) (k : A -> M B) s s' b :
  bind m k s = (s', inr b) -> exists s1 a, m s = (s1, inr a) /\ k a s1 = (s', inr b).
Proof.
  unfold bind. destruct (m s) as [s1 [e|a]]; [discriminate|eauto].
Qed.

(** ** The penalty model and the effective-return calculator *)

Lemma calculate_gamma_in_range c :
  0 <= c <= 1 -> calculate_gamma c = inr (1 - c).
Proof.
  intros [H0 H1]. unfold calculate_gamma.
  apply Qle_bool_iff in H0. apply Qle_bool_iff in H1. rewrite H0, H1. reflexivity.
Qed.

Lemma augment_raw i g : raw_fields (augment i g) = raw_fields i.
Proof. reflexivity. Qed.

Lemma augment_confidence i g : confidence (augment i g) = confidence i.
Proof. reflexivity. Qed.

Lemma augment_idem i g : augment (augment i g) g = augment i g.
Proof. reflexivity. Qed.

Lemma process_initiative_eq pf r h log :
  process_initiative pf r (mkState h log) =
  match nth_error h r with
  | None => (mkState h log, inl DanglingRef)
  | Some i => match pf (confidence i) with
              | inl e => (mkState h log, inl e)
              | inr g => (mkState (replace_nth h r (augment i g)) log, inr tt)
              end
  end.
Proof.
  unfold process_initiative, bind, load, lift, store; simpl.
  destruct (nth_error h r) as [i|] eqn:Hr; [|reflexivity].
  destruct (pf (confidence i)) as [e|g]; [reflexivity|]. simpl.
  rewrite nth_error_replace_nth_eq by (eapply nth_error_Some_lt; eauto).
  f_equal. f_equal.
  revert Hr. clear. revert r.
  induction h as [|y h IH]; intros [|r] Hr; simpl in *; try discriminate.
  - reflexivity.
  - f_equal. apply IH. exact Hr.
Qed.

Lemma for_each_cons (f : nat -> M unit) r l s :
  for_each f (r :: l) s =
  match f r s with
  | (s', inl e) => (s', inl e)
  | (s', inr _) => for_each f l s'
  end.
Proof. reflexivity. Qed.

Lemma for_each_frame pf l s :
  solve_log (fst (for_each (process_initiative pf) l s)) = solve_log s /\
  forall k, ~ In k l ->
    nth_error (heap (fst (for_each (process_initiative pf) l s))) k = nth_error (heap s) k.
Proof.
  revert s; induction l as [|r l IH]; intros [h log]; [simpl; split; auto|].
  rewrite for_each_cons, process_initiative_eq.
  destruct (nth_error h r) as [i|]; [|simpl; split; auto].
  destruct (pf (confidence i)) as [e|g]; [simpl; split; auto|].
  destruct (IH (mkState (replace_nth h r (augment i g)) log)) as [IHlog IHk].
  split; [exact IHlog|].
  intros k Hk. rewrite IHk by (intros Hin; apply Hk; right; exact Hin). simpl.
  apply nth_error_replace_nth_neq. intros ->. apply Hk. left. reflexivity.
Qed.

Lemma for_each_success pf l h log :
  (forall k, In k l -> exists i g, nth_error h k = Some i /\ pf (confidence i) = inr g) ->
  exists h', for_each (process_initiative pf) l (mkState h log) = (mkState h' log, inr tt) /\
    forall k, In k l -> exists i g, nth_error h k = Some i /\ pf (confidence i) = inr g /\
                              nth_error h' k = Some (augment i g).
Proof.
  revert h; induction l as [|r l IH]; intros h Hl.
  - exists h. split; [reflexivity|]. intros k [].
  - destruct (Hl r (or_introl eq_refl)) as (i & g & Hi & Hg).
    set (h1 := replace_nth h r (augment i g)).
    assert (Hh1r : nth_error h1 r = Some (augment i g)).
    { apply nth_error_replace_nth_eq. eapply nth_error_Some_lt; eauto. }
    destruct (IH h1) as (h' & Hrun & Hh').
    { intros k Hk. destruct (Nat.eq_dec k r) as [->|Hne].
      - exists (augment i g), g. split; [exact Hh1r|]. rewrite augment_confidence. exact Hg.
      - unfold h1. rewrite nth_error_replace_nth_neq by exact Hne.
        apply Hl. right. exact Hk. }
    exists h'. split.
    + rewrite for_each_cons, process_initiative_eq, Hi, Hg. exact Hrun.
    + intros k Hk. destruct (Nat.eq_dec k r) as [->|Hne].
      * exists i, g. split; [exact Hi|]. split; [exact Hg|].
        destruct (in_dec Nat.eq_dec r l) as [Hin|Hnin].
        -- destruct (Hh' r Hin) as (i1 & g1 & Hi1 & Hg1 & Hh'r).
           rewrite Hh1r in Hi1. injection Hi1 as <-.
           rewrite augment_confidence, Hg in Hg1. injection Hg1 as <-.
           rewrite Hh'r. reflexivity.
        -- pose proof (proj2 (for_each_frame pf l (mkState h1 log)) r Hnin) as Hf.
           rewrite Hrun in Hf. simpl in Hf. rewrite Hf. exact Hh1r.
      * destruct Hk as [Hk|Hk]; [congruence|].
        destruct (Hh' k Hk) as (i1 & g1 & Hi1 & Hg1 & Hh'k).
        unfold h1 in Hi1. rewrite nth_error_replace_nth_neq in Hi1 by exact Hne.
        exists i1, g1. auto.
Qed.

(** *** C2 *)

(** C2: the penalty model [calculate_gamma] returns [1 - c] for a confidence
    [c] in [[0,1]] (a gamma that is itself in [[0,1]]), and it raises
    [ValueError] exactly when [c] lies outside [[0,1]]. *)
Theorem calculate_gamma_contract (c : Q) :
  (0 <= c <= 1 -> calculate_gamma c = inr (1 - c) /\ 0 <= 1 - c <= 1) /\
  ((exists msg, calculate_gamma c = inl (ValueError msg)) <-> ~ (0 <= c <= 1)).
Proof.
  split.
  - intros Hc. split; [apply calculate_gamma_in_range; exact Hc|].
    destruct Hc as [H0 H1]. split.
    + apply (Qplus_le_r _ _ c). ring_simplify. exact H1.
    + apply (Qplus_le_r _ _ (c - 1)). ring_simplify. exact H0.
  - split.
    + intros [msg Hmsg] Hc. rewrite calculate_gamma_in_range in Hmsg by exact Hc.
      discriminate.
    + intros Hc. unfold calculate_gamma.
      destruct (Qle_bool 0 c) eqn:H0; destruct (Qle_bool c 1) eqn:H1; simpl;
        try (eexists; reflexivity).
      exfalso. apply Hc. split; apply Qle_bool_iff; assumption.
Qed.

(** *** C3 *)

(** C3: on references whose records have a confidence in [[0,1]],
    [calculate_effective_returns] with the default penalty model returns
    normally and leaves at each reference the original raw fields (id, cost,
    confidence, R_best, R_med, R_worst), [gamma = 1 - confidence] and, for each
    scenario [s], [effective_returns[s] = (1 - gamma) * raw[s] + gamma * R_worst]. *)
Theorem calculate_effective_returns_blend (h : list initiative) (refs : list nat)
    (log : list solve_call) :
  (forall k, In k refs -> exists i, nth_error h k = Some i /\ 0 <= confidence i <= 1) ->
  exists h', calculate_effective_returns calculate_gamma refs (mkState h log) =
             (mkState h' log, inr refs) /\
    forall k, In k refs -> exists i i', nth_error h k = Some i /\ nth_error h' k = Some i' /\
      raw_fields i' = raw_fields i /\
      gamma i' = Some (1 - confidence i) /\
      forall s, eff_lookup i' s =
        inr ((1 - (1 - confidence i)) * R_base i s + (1 - confidence i) * R_worst i).
Proof.
  intros Hc.
  destruct (for_each_success calculate_gamma refs h log) as (h' & Hrun & Hh').
  { intros k Hk. destruct (Hc k Hk) as (i & Hi & Hci).
    exists i, (1 - confidence i). split; [exact Hi|]. apply calculate_gamma_in_range. exact Hci. }
  exists h'. split.
  - unfold calculate_effective_returns, bind. rewrite Hrun. reflexivity.
  - intros k Hk. destruct (Hh' k Hk) as (i & g & Hi & Hg & Hh'k).
    destruct (Hc k Hk) as (i0 & Hi0 & Hci). rewrite Hi in Hi0. injection Hi0 as <-.
    rewrite calculate_gamma_in_range in Hg by exact Hci. injection Hg as <-.
    exists i, (augment i (1 - confidence i)).
    split; [exact Hi|]. split; [exact Hh'k|]. split; [reflexivity|]. split; [reflexivity|].
    intros []; reflexivity.
Qed.

(** ** Stages of the pipeline *)

Lemma filter_eligible_eq thr l h log :
  filter_eligible thr l (mkState h log) =
  (mkState h log, if refs_valid h l then inr (filter (is_eligible thr h) l) else inl DanglingRef).
Proof.
  induction l as [|r l IH]; [reflexivity|].
  simpl filter_eligible. unfold bind at 1, load at 1. simpl refs_valid. simpl filter.
  unfold is_eligible at 1. cbn [heap].
  destruct (nth_error h r) as [i|]; [|reflexivity]. simpl.
  unfold bind in *. rewrite IH. destruct (refs_valid h l); reflexivity.
Qed.

Lemma mapM_load_eq l h log :
  mapM load l (mkState h log) =
  (mkState h log, if refs_valid h l then inr (deref h l) else inl DanglingRef).
Proof.
  induction l as [|r l IH]; [reflexivity|].
  simpl mapM. unfold bind at 1, load at 1. simpl refs_valid. simpl deref. cbn [heap].
  destruct (nth_error h r) as [i|]; [|reflexivity]. simpl.
  unfold bind in *. rewrite IH. destruct (refs_valid h l); reflexivity.
Qed.

Lemma calculate_effective_returns_state pf l s :
  solve_log (fst (calculate_effective_returns pf l s)) = solve_log s /\
  (forall k, ~ In k l ->
     nth_error (heap (fst (calculate_effective_returns pf l s))) k = nth_error (heap s) k) /\
  forall s' l', calculate_effective_returns pf l s = (s', inr l') -> l' = l.
Proof.
  unfold calculate_effective_returns, bind.
  pose proof (for_each_frame pf l s) as [Hlog Hk].
  destruct (for_each (process_initiative pf) l s) as [s1 [e|u]]; simpl in *.
  - split; [exact Hlog|]. split; [exact Hk|]. intros ? ? H; discriminate.
  - split; [exact Hlog|]. split; [exact Hk|]. intros ? ? H; unfold ret in H; congruence.
Qed.

Lemma scenario_loop_state cbc l b ss V s s' x :
  scenario_loop cbc l b ss V s = (s', x) ->
  heap s' = heap s /\
  exists calls, solve_log s' = calls ++ solve_log s /\
                forallb (fun c => negb (is_main_call c)) calls = true.
Proof.
  revert V s s' x; induction ss as [|sc ss IH]; intros V [h log] s' x H.
  - injection H as <- _. split; [reflexivity|]. exists []. split; reflexivity.
  - simpl scenario_loop in H. unfold bind, lift, call_solver in H.
    rewrite mapM_load_eq in H. cbn [heap solve_log] in *.
    assert (Hstop : (mkState h log) = s' ->
      heap s' = h /\ exists calls, solve_log s' = calls ++ log /\
                     forallb (fun c => negb (is_main_call c)) calls = true).
    { intros <-. split; [reflexivity|]. exists []. split; reflexivity. }
    destruct (refs_valid h l); [|injection H as <- _; apply Hstop; reflexivity].
    destruct (build_ideal_problem (deref h l) sc b) as [e|p];
      [injection H as <- _; apply Hstop; reflexivity|].
    assert (Hrec : forall V', scenario_loop cbc l b ss V' (mkState h (IdealSolve sc p :: log))
                              = (s', x) ->
      heap s' = h /\ exists calls, solve_log s' = calls ++ log /\
                     forallb (fun c => negb (is_main_call c)) calls = true).
    { intros V' H'. destruct (IH V' _ s' x H') as [Hh (calls & Hc & Hf)].
      split; [exact Hh|]. exists (calls ++ [IdealSolve sc p]).
      split; [rewrite Hc, <- app_assoc; reflexivity|].
      rewrite forallb_app, Hf. reflexivity. }
    destruct (cbc p) as [msg|st vals]; [eapply Hrec; exact H|].
    destruct (is_optimal st); [|eapply Hrec; exact H].
    destruct (objective_value (p_objective p) vals); [eapply Hrec; exact H|].
    injection H as <- _. split; [reflexivity|]. exists [IdealSolve sc p]. split; reflexivity.
Qed.

Lemma select_loop_state vals l sel tc tar s :
  fst (select_loop vals l sel tc tar s) = s.
Proof.
  revert sel tc tar; induction l as [|r l IH]; intros sel tc tar; [reflexivity|].
  simpl select_loop. unfold bind at 1, load at 1.
  destruct (nth_error (heap s) r) as [i|]; [|reflexivity]. simpl.
  destruct (vals (Select (i_id i))) as [x|]; [|reflexivity].
  destruct (Qltb (1 # 2) x); [|apply IH].
  unfold bind at 1, lift at 1. destruct (add_returns i tar); [reflexivity|apply IH].
Qed.

Ltac split_bind_as H s a Hm := apply bind_inr in H; destruct H as (s & a & Hm & H).

Ltac split_bind H :=
  let s := fresh "s" in let a := fresh "a" in let Hm := fresh "Hm" in
  apply bind_inr in H; destruct H as (s & a & Hm & H).

(** Every result a run returns is one of the early-return dicts, the dict of
    a non-optimal main solve, or a dict whose status is ["Optimal"]. *)
Lemma run_result cbc h refs b thr fl pf s1 r :
  run cbc h refs b thr fl pf = (s1, inr r) ->
  (r = no_eligible_result /\ s1 = mkState h []) \/
  (exists V, r = failure_result "Error in V_j_star calculation" V /\
             forallb (fun c => negb (is_main_call c)) (solve_log s1) = true) \/
  (exists e V, r = failure_result ("Error solving main problem: " ++ e) V) \/
  (exists st V, is_optimal st = false /\
     r = mkResult (LpStatus st) None [] 0 zero_returns V zero_regrets) \/
  status r = "Optimal"%string.
Proof.
  unfold run, solve_minimax_regret_optimization. intros H.
  split_bind H. rewrite filter_eligible_eq in Hm.
  destruct (refs_valid h refs); [|discriminate]. injection Hm as <- <-.
  destruct (filter (is_eligible thr h) refs) as [|k ks].
  { injection H as <- <-. left. split; reflexivity. }
  split_bind H. split_bind H.
  pose proof (calculate_effective_returns_state pf (k :: ks) (mkState h [])) as [Hlog _].
  rewrite Hm in Hlog. simpl in Hlog.
  unfold calculate_optimal_scenario_returns in Hm0.
  destruct (scenario_loop_state _ _ _ _ _ _ _ _ Hm0) as [_ (calls & Hc & Hf)].
  destruct (existsb (fun kv => is_neginf (snd kv)) a0).
  { injection H as <- <-. right; left. exists a0. split; [reflexivity|].
    rewrite Hc, Hlog, app_nil_r. exact Hf. }
  split_bind H. split_bind H. split_bind H.
  unfold call_solver in Hm3. injection Hm3 as <- <-.
  destruct (cbc a2) as [msg|st vals].
  { injection H as <- <-. right; right; left. exists msg, a0. reflexivity. }
  unfold assemble in H. destruct (is_optimal st) eqn:Hopt.
  - split_bind H. destruct a3 as [[sel tc] tar]. split_bind H.
    injection H as <- <-. right; right; right; right.
    destruct st; simpl in Hopt; try discriminate. reflexivity.
  - injection H as <- <-. right; right; right; left. exists st, a0. rewrite Hopt. split; reflexivity.
Qed.

(** ** Which stages touch the heap *)

Lemma pres_bind {A B} (m : M A) (k : A -> M B) :
  pres m -> (forall a, pres (k a)) -> pres (bind m k).
Proof.
  intros Hm Hk s. specialize (Hm s). unfold bind.
  destruct (m s) as [s1 [e|a]]; simpl in *; [exact Hm|]. rewrite Hk. exact Hm.
Qed.

Lemma pres_ret {A} (a : A) : pres (ret a).
Proof. intros s; reflexivity. Qed.

Lemma pres_throw {A} e : pres (@throw A e).
Proof. intros s; reflexivity. Qed.

Lemma pres_lift {A} (x : exn + A) : pres (lift x).
Proof. intros s; reflexivity. Qed.

Lemma pres_load r : pres (load r).
Proof. intros s; unfold load. destruct (nth_error (heap s) r); reflexivity. Qed.

Lemma pres_call_solver cbc c p : pres (call_solver cbc c p).
Proof. intros s; reflexivity. Qed.

Lemma pres_mapM {A B} (f : A -> M B) l : (forall x, pres (f x)) -> pres (mapM f l).
Proof.
  intros Hf. induction l as [|x l IH]; simpl.
  - apply pres_ret.
  - apply pres_bind; [apply Hf|]. intros y. apply pres_bind; [exact IH|].
    intros ys. apply pres_ret.
Qed.

Lemma pres_scenario_loop cbc l b ss V : pres (scenario_loop cbc l b ss V).
Proof.
  intros s. destruct (scenario_loop cbc l b ss V s) as [s' x] eqn:E.
  apply scenario_loop_state in E. simpl. apply E.
Qed.

Lemma pres_select_loop vals l sel tc tar : pres (select_loop vals l sel tc tar).
Proof. intros s. rewrite select_loop_state. reflexivity. Qed.

Lemma pres_assemble prob st vals l V : pres (assemble prob st vals l V).
Proof.
  unfold assemble. destruct (is_optimal st); [|apply pres_ret].
  apply pres_bind; [apply pres_select_loop|]. intros [[sel tc] tar].
  apply pres_bind; [apply pres_lift|]. intros reg. apply pres_ret.
Qed.

(** The heap a run leaves behind is the one [calculate_effective_returns]
    leaves, or the caller's own when the filter raises or is empty. *)
Lemma run_heap cbc h refs b thr fl pf :
  heap (fst (run cbc h refs b thr fl pf)) =
  if refs_valid h refs then
    match filter (is_eligible thr h) refs with
    | [] => h
    | el => heap (fst (calculate_effective_returns pf el (mkState h [])))
    end
  else h.
Proof.
  unfold run, solve_minimax_regret_optimization. unfold bind at 1.
  rewrite filter_eligible_eq. destruct (refs_valid h refs); [|reflexivity].
  destruct (filter (is_eligible thr h) refs) as [|k ks]; [reflexivity|].
  unfold bind at 1.
  destruct (calculate_effective_returns pf (k :: ks) (mkState h [])) as [s1 [e|pr]];
    [reflexivity|].
  revert s1. fold (pres (V_j_star <- calculate_optimal_scenario_returns cbc pr b ;;
      if existsb (fun kv => is_neginf (snd kv)) V_j_star
      then ret (failure_result "Error in V_j_star calculation" V_j_star)
      else
        inits <- mapM load pr ;;
        prob <- lift (build_main_problem inits V_j_star b fl) ;;
        out <- call_solver cbc (MainSolve prob) prob ;;
        match out with
        | SolveRaised e => ret (failure_result ("Error solving main problem: " ++ e) V_j_star)
        | SolveDone st vals => assemble prob st vals pr V_j_star
        end)).
  apply pres_bind; [apply pres_scenario_loop|]. intros V.
  destruct (existsb (fun kv => is_neginf (snd kv)) V); [apply pres_ret|].
  apply pres_bind; [apply pres_mapM, pres_load|]. intros inits.
  apply pres_bind; [apply pres_lift|]. intros prob.
  apply pres_bind; [apply pres_call_solver|]. intros [msg|st vals].
  - apply pres_ret.
  - apply pres_assemble.
Qed.

Lemma filter_In_eligible thr h refs k :
  In k (filter (is_eligible thr h) refs) <-> In k refs /\ is_eligible thr h k = true.
Proof. apply filter_In. Qed.

Lemma Qle_bool_false_lt a b : b < a -> Qle_bool a b = false.
Proof.
  intros Hlt. destruct (Qle_bool a b) eqn:E; [|reflexivity].
  apply Qle_bool_iff in E. exfalso. apply (Qlt_not_le b a Hlt E).
Qed.

Lemma filter_none_eligible thr h refs :
  (forall k, In k refs -> exists i, nth_error h k = Some i /\ confidence i < thr) ->
  refs_valid h refs = true /\ filter (is_eligible thr h) refs = [].
Proof.
  induction refs as [|k refs IH]; intros Hc; [split; reflexivity|].
  destruct IH as [Hv Hf]; [intros k' Hk'; apply Hc; right; exact Hk'|].
  destruct (Hc k (or_introl eq_refl)) as (i & Hi & Hlt).
  simpl. unfold is_eligible at 1. rewrite Hi, Hv, Hf, (Qle_bool_false_lt _ _ Hlt).
  split; reflexivity.
Qed.

(** *** C4 *)

(** C4: when no initiative reaches [min_confidence_threshold], the run
    returns the "No Eligible Initiatives" dict (empty selection, no regret
    value, cost 0, every return 0, empty [v_j_star] and regrets), with the
    solve log still empty (no solver invoked) and the heap untouched. *)
Theorem no_eligible_initiatives_short_circuit cbc h refs total_budget
    min_confidence_threshold min_portfolio_worst_return pf :
  (forall k, In k refs -> exists i, nth_error h k = Some i /\
                                    confidence i < min_confidence_threshold) ->
  exists r, run cbc h refs total_budget min_confidence_threshold min_portfolio_worst_return pf
            = (mkState h [], inr r) /\
    status r = "No Eligible Initiatives"%string /\ selected_initiatives r = [] /\
    min_max_regret r = None /\ total_cost r = 0 /\
    (forall s, dict_get (total_actual_returns r) s = Some 0) /\
    v_j_star r = [] /\ regrets_for_selected_portfolio r = [].
Proof.
  intros Hc. destruct (filter_none_eligible _ _ _ Hc) as [Hv Hf].
  unfold run, solve_minimax_regret_optimization. unfold bind at 1.
  rewrite filter_eligible_eq, Hv, Hf.
  eexists. split; [reflexivity|].
  repeat split; intros []; reflexivity.
Qed.

(** *** C6 *)

(** C6 (counterexample): on the spec's end-to-end scenario, when CBC stops
    on the minimax problem without a solution, the run returns the status
    "Not Solved", which is none of Optimal, Infeasible, Unbounded, Undefined,
    No Eligible Initiatives or an Error message. *)
Lemma status_not_solved_escapes_spec_set :
  match run cbc_main_not_solved example_heap example_refs 15 (3 # 10) 40 calculate_gamma with
  | (_, inr r) => status r = "Not Solved"%string /\ in_spec_status_set (status r) = false
  | (_, inl _) => False
  end.
Proof. vm_compute. split; reflexivity. Qed.

(** C6 (as amended): the status of every returned Result is one of the five
    strings of [lp.LpStatus] (Optimal, Not Solved, Infeasible, Unbounded,
    Undefined), "No Eligible Initiatives", "Error in V_j_star calculation", or
    "Error solving main problem: " followed by the exception text. *)
Theorem result_status_in_code_set cbc h refs total_budget min_confidence_threshold
    min_portfolio_worst_return pf s1 r :
  run cbc h refs total_budget min_confidence_threshold min_portfolio_worst_return pf
    = (s1, inr r) ->
  in_code_status_set (status r) = true.
Proof.
  intros H.
  destruct (run_result _ _ _ _ _ _ _ _ _ H)
    as [[-> _] | [(V & -> & _) | [(e & V & ->) | [(st & V & _ & ->) | Hopt]]]].
  - reflexivity.
  - reflexivity.
  - simpl. destruct e; reflexivity.
  - destruct st; reflexivity.
  - rewrite Hopt. reflexivity.
Qed.

(** *** C7 *)

(** C7: whenever the returned status is not "Optimal", the selection is
    empty, [min_max_regret] is [None], [total_cost] is 0, every per-scenario
    return is 0, and every per-scenario regret is 0 or absent. *)
Theorem non_optimal_result_is_empty cbc h refs total_budget min_confidence_threshold
    min_portfolio_worst_return pf s1 r :
  run cbc h refs total_budget min_confidence_threshold min_portfolio_worst_return pf
    = (s1, inr r) ->
  status r <> "Optimal"%string ->
  selected_initiatives r = [] /\ min_max_regret r = None /\ total_cost r = 0 /\
  (forall s, dict_get (total_actual_returns r) s = Some 0) /\
  (forall s, dict_get (regrets_for_selected_portfolio r) s = None \/
             dict_get (regrets_for_selected_portfolio r) s = Some (Fin 0)).
Proof.
  intros H Hst.
  destruct (run_result _ _ _ _ _ _ _ _ _ H)
    as [[-> _] | [(V & -> & _) | [(e & V & ->) | [(st & V & _ & ->) | Hopt]]]];
    try (repeat split; intros []; simpl; auto; fail).
  contradiction.
Qed.

(** *** C10 *)

(** C10: a run changes no dict other than those of the eligible initiatives
    (reference in the input list, confidence at least the threshold): every
    other record, in particular every ineligible one, is left as it was, also
    when the run raises.  When every reference is valid and the penalty model
    succeeds on the eligible confidences, each eligible record is augmented
    in place: it becomes [augment i g], the caller's dict with the keys
    [gamma] and [effective_returns] added and its raw fields unchanged. *)
Theorem run_mutates_only_eligible cbc h refs total_budget min_confidence_threshold
    min_portfolio_worst_return pf :
  let s1 := fst (run cbc h refs total_budget min_confidence_threshold
                   min_portfolio_worst_return pf) in
  (forall k, ~ (In k refs /\ is_eligible min_confidence_threshold h k = true) ->
     nth_error (heap s1) k = nth_error h k) /\
  (refs_valid h refs = true ->
   (forall k, In k refs -> is_eligible min_confidence_threshold h k = true ->
      exists i g, nth_error h k = Some i /\ pf (confidence i) = inr g) ->
   forall k, In k refs -> is_eligible min_confidence_threshold h k = true ->
     exists i g, nth_error h k = Some i /\ pf (confidence i) = inr g /\
       nth_error (heap s1) k = Some (augment i g) /\
       gamma (augment i g) = Some g /\
       effective_returns (augment i g) = Some (effective_returns_of g i) /\
       raw_fields (augment i g) = raw_fields i).
Proof.
  intros s1. unfold s1. rewrite run_heap. split.
  - intros k Hk. destruct (refs_valid h refs); [|reflexivity].
    destruct (filter (is_eligible min_confidence_threshold h) refs) as [|k0 ks] eqn:Hf;
      [reflexivity|].
    rewrite <- Hf. apply calculate_effective_returns_state.
    rewrite filter_In_eligible. exact Hk.
  - intros Hv Hpf k Hk Hel. rewrite Hv.
    assert (Hin : In k (filter (is_eligible min_confidence_threshold h) refs))
      by (apply filter_In_eligible; split; assumption).
    destruct (for_each_success pf (filter (is_eligible min_confidence_threshold h) refs) h [])
      as (h' & Hrun & Hh').
    { intros k' Hk'. apply filter_In_eligible in Hk'. apply Hpf; apply Hk'. }
    destruct (filter (is_eligible min_confidence_threshold h) refs) as [|k0 ks] eqn:Hf;
      [destruct Hin|].
    unfold calculate_effective_returns, bind. rewrite Hrun. simpl.
    destruct (Hh' k Hin) as (i & g & Hi & Hg & Hh'k).
    exists i, g. repeat split; assumption.
Qed.

(** C10 (counterexample): [A] (confidence 2.0) and [B] (confidence 0.5)
    are both eligible at the threshold 0.3; [calculate_gamma] raises
    [ValueError] on [A], the run raises, and neither record has been
    augmented: the heap is left as it was. *)
Lemma penalty_error_leaves_eligible_unaugmented :
  is_eligible (3 # 10) penalty_heap 0 = true /\ is_eligible (3 # 10) penalty_heap 1 = true /\
  match run cbc_select_A penalty_heap [0; 1]%nat 15 (3 # 10) 40 calculate_gamma with
  | (s, inl e) => e = ValueError "Confidence score must be between 0 and 1." /\
                  heap s = penalty_heap
  | (_, inr _) => False
  end.
Proof. vm_compute. split; [reflexivity|]. split; [reflexivity|]. split; reflexivity. Qed.

(** ** Assembling the optimal result *)

Lemma fold_add_return_step_inl i ss e : fold_left (add_return_step i) ss (inl e) = inl e.
Proof. induction ss as [|x ss IH]; [reflexivity|exact IH]. Qed.

Lemma fold_add_return_step ss i tar tar' :
  NoDup ss -> fold_left (add_return_step i) ss (inr tar) = inr tar' ->
  forall sc t0, dict_get tar sc = Some t0 ->
    (In sc ss -> exists e, eff_lookup i sc = inr e /\ dict_get tar' sc = Some (t0 + e)) /\
    (~ In sc ss -> dict_get tar' sc = Some t0).
Proof.
  revert tar; induction ss as [|x ss IH]; intros tar Hnd H sc t0 Ht.
  - simpl in H. injection H as <-. split; [intros []|intros _; exact Ht].
  - inversion Hnd as [|? ? Hx Hnd']; subst. cbn [fold_left] in H. unfold add_return_step at 2 in H.
    destruct (dict_get tar x) as [a|] eqn:Ha;
      [|rewrite fold_add_return_step_inl in H; discriminate].
    destruct (eff_lookup i x) as [e|b] eqn:Hb;
      [rewrite fold_add_return_step_inl in H; discriminate|].
    destruct (scenario_eqb sc x) eqn:Hsx.
    + apply scenario_eqb_spec in Hsx. subst sc. rewrite Ha in Ht. injection Ht as ->.
      assert (Hg : dict_get (dict_set tar x (t0 + b)) x = Some (t0 + b)).
      { rewrite dict_get_set. destruct x; reflexivity. }
      destruct (IH _ Hnd' H x (t0 + b) Hg) as [_ Hout].
      split; [intros _; exists b; split; [exact Hb|apply Hout; exact Hx]|].
      intros Hn. exfalso. apply Hn. left. reflexivity.
    + assert (Hg : dict_get (dict_set tar x (a + b)) sc = Some t0).
      { rewrite dict_get_set, Hsx. exact Ht. }
      destruct (IH _ Hnd' H sc t0 Hg) as [Hin Hout].
      assert (Hne : x <> sc) by (intros ->; destruct sc; discriminate).
      split.
      * intros [Heq|Hi]; [contradiction|]. apply Hin. exact Hi.
      * intros Hn. apply Hout. intros Hi. apply Hn. right. exact Hi.
Qed.

Lemma scenarios_NoDup : NoDup scenarios.
Proof.
  repeat constructor; simpl; intuition discriminate.
Qed.

Lemma scenarios_complete s : In s scenarios.
Proof. destruct s; simpl; auto. Qed.

Lemma add_returns_spec i tar tar' :
  add_returns i tar = inr tar' ->
  forall sc t0, dict_get tar sc = Some t0 ->
    exists e, eff_lookup i sc = inr e /\ dict_get tar' sc = Some (t0 + e).
Proof.
  intros H sc t0 Ht.
  apply (fold_add_return_step scenarios i tar tar' scenarios_NoDup H sc t0 Ht).
  apply scenarios_complete.
Qed.

Lemma fold_regret_step_inl V tar ss e : fold_left (regret_step V tar) ss (inl e) = inl e.
Proof. induction ss as [|x ss IH]; [reflexivity|exact IH]. Qed.

Lemma fold_regret_step V tar ss g g' :
  NoDup ss -> fold_left (regret_step V tar) ss (inr g) = inr g' ->
  forall sc,
    (In sc ss -> exists v t, dict_get V sc = Some v /\ dict_get tar sc = Some t /\
                             dict_get g' sc = Some (ext_sub v t)) /\
    (~ In sc ss -> dict_get g' sc = dict_get g sc).
Proof.
  revert g; induction ss as [|x ss IH]; intros g Hnd H sc.
  - simpl in H. injection H as <-. split; [intros []|reflexivity].
  - inversion Hnd as [|? ? Hx Hnd']; subst. cbn [fold_left] in H. unfold regret_step at 2 in H.
    destruct (dict_get V x) as [v|] eqn:Hv; [|rewrite fold_regret_step_inl in H; discriminate].
    destruct (dict_get tar x) as [t|] eqn:Ht; [|rewrite fold_regret_step_inl in H; discriminate].
    destruct (IH _ Hnd' H sc) as [Hin Hout].
    destruct (scenario_eqb sc x) eqn:Hsx.
    + apply scenario_eqb_spec in Hsx. subst sc.
      split; [|intros Hn; exfalso; apply Hn; left; reflexivity].
      intros _. exists v, t. split; [exact Hv|]. split; [exact Ht|].
      rewrite (Hout Hx), dict_get_set. destruct x; reflexivity.
    + assert (Hne : x <> sc) by (intros ->; destruct sc; discriminate).
      split.
      * intros [Heq|Hi]; [contradiction|]. apply Hin. exact Hi.
      * intros Hn. rewrite Hout by (intros Hi; apply Hn; right; exact Hi).
        rewrite dict_get_set, Hsx. reflexivity.
Qed.

Lemma regrets_of_spec V tar reg reg' :
  regrets_of V tar reg = inr reg' ->
  forall sc, exists v t, dict_get V sc = Some v /\ dict_get tar sc = Some t /\
                         dict_get reg' sc = Some (ext_sub v t).
Proof.
  intros H sc. apply (fold_regret_step V tar scenarios reg reg' scenarios_NoDup H sc).
  apply scenarios_complete.
Qed.

Lemma select_loop_spec vals l sel tc tar s s' sel' tc' tar' :
  select_loop vals l sel tc tar s = (s', inr (sel', tc', tar')) ->
  let recs := filter (chosen vals) (deref (heap s) l) in
  s' = s /\ sel' = sel ++ map i_id recs /\ tc' == tc + sumQ (map cost recs) /\
  forall sc t0, dict_get tar sc = Some t0 ->
    exists effs t', mapE (fun i => eff_lookup i sc) recs = inr effs /\
                    dict_get tar' sc = Some t' /\ t' == t0 + sumQ effs.
Proof.
  revert sel tc tar; induction l as [|r l IH]; intros sel tc tar H recs.
  - injection H as <- <- <- <-. subst recs. simpl.
    split; [reflexivity|]. split; [rewrite app_nil_r; reflexivity|].
    split; [ring|]. intros sc t0 Ht. exists [], t0. split; [reflexivity|].
    split; [exact Ht|]. simpl. ring.
  - cbn [select_loop] in H. unfold bind at 1, load at 1 in H.
    subst recs. simpl deref.
    destruct (nth_error (heap s) r) as [i|] eqn:Hi; [|discriminate].
    destruct (vals (Select (i_id i))) as [x|] eqn:Hx; [|discriminate].
    assert (Hc : chosen vals i = Qltb (1 # 2) x) by (unfold chosen; rewrite Hx; reflexivity).
    cbn [filter]. rewrite Hc.
    destruct (Qltb (1 # 2) x) eqn:Hlt.
    + unfold bind at 1, lift at 1 in H.
      destruct (add_returns i tar) as [e|tar1] eqn:Ha; [discriminate|].
      destruct (IH _ _ _ H) as (-> & Hsel & Htc & Htar).
      split; [reflexivity|].
      split; [rewrite Hsel, <- app_assoc; reflexivity|].
      split; [rewrite Htc; simpl; ring|].
      intros sc t0 Ht.
      destruct (add_returns_spec _ _ _ Ha sc t0 Ht) as (e & He & Ht1).
      destruct (Htar sc _ Ht1) as (effs & t' & Hm & Ht' & Heq).
      exists (e :: effs), t'. simpl. rewrite He, Hm.
      split; [reflexivity|]. split; [exact Ht'|]. rewrite Heq. ring.
    + apply (IH _ _ _ H).
Qed.

Lemma assemble_state prob st vals l V s s' x :
  assemble prob st vals l V s = (s', x) -> s' = s.
Proof.
  intros H. pose proof (pres_assemble prob st vals l V s) as Hp.
  unfold assemble in H. destruct (is_optimal st); [|injection H as <- _; reflexivity].
  unfold bind at 1 in H. rewrite (surjective_pairing (select_loop _ _ _ _ _ _)) in H.
  rewrite select_loop_state in H.
  destruct (snd (select_loop vals l [] 0 zero_returns s)) as [e|[[sel tc] tar]];
    [injection H as <- _; reflexivity|].
  unfold bind, lift in H. destruct (regrets_of V tar zero_regrets);
    injection H as <- _; reflexivity.
Qed.

Lemma not_main_call_in l p :
  forallb (fun c => negb (is_main_call c)) l = true -> ~ In (MainSolve p) l.
Proof.
  intros Hf Hin. rewrite forallb_forall in Hf. specialize (Hf _ Hin). discriminate.
Qed.

Lemma dict_get_In {A} (d : dict A) k v : dict_get d k = Some v -> In (k, v) d.
Proof.
  induction d as [|[k' v'] d IH]; simpl; [discriminate|].
  destruct (scenario_eqb k k') eqn:E.
  - injection 1 as <-. apply scenario_eqb_spec in E. subst. left. reflexivity.
  - intros H. right. apply IH. exact H.
Qed.

Lemma no_neginf_get V s v :
  existsb (fun kv => is_neginf (snd kv)) V = false -> dict_get V s = Some v ->
  exists q, v = Fin q.
Proof.
  intros Hex Hg. apply dict_get_In in Hg.
  destruct v as [q|]; [exists q; reflexivity|].
  exfalso. assert (Ht : existsb (fun kv => is_neginf (snd kv)) V = true).
  { apply existsb_exists. exists (s, NegInf). split; [exact Hg|reflexivity]. }
  congruence.
Qed.

(** *** C1 *)

(** C1: in a run whose minimax solve returns [Optimal] with values [vals],
    the result has status "Optimal"; [selected_initiatives] lists the ids of
    the eligible records whose variable exceeds [0.5]; [total_cost] is the sum
    of their costs; [total_actual_returns[s]] the sum of their
    [effective_returns[s]]; [regrets_for_selected_portfolio[s]] is
    [V*[s] - total_actual_returns[s]] with [V*[s]] the finite value in
    [v_j_star]; and [min_max_regret] is the value of the objective. *)
Theorem optimal_result_assembly cbc h refs total_budget min_confidence_threshold
    min_portfolio_worst_return pf s1 r p vals :
  run cbc h refs total_budget min_confidence_threshold min_portfolio_worst_return pf
    = (s1, inr r) ->
  In (MainSolve p) (solve_log s1) ->
  cbc p = SolveDone LpStatusOptimal vals ->
  let sel := filter (chosen vals)
               (deref (heap s1) (filter (is_eligible min_confidence_threshold h) refs)) in
  status r = "Optimal"%string /\
  selected_initiatives r = map i_id sel /\
  total_cost r == sumQ (map cost sel) /\
  (forall s, exists effs t, mapE (fun i => eff_lookup i s) sel = inr effs /\
                            dict_get (total_actual_returns r) s = Some t /\ t == sumQ effs) /\
  (forall s, exists v t, dict_get (v_j_star r) s = Some (Fin v) /\
                         dict_get (total_actual_returns r) s = Some t /\
                         dict_get (regrets_for_selected_portfolio r) s = Some (Fin (v - t))) /\
  min_max_regret r = affine_value (p_objective p) vals.
Proof.
  intros H Hin Hcbc. cbv zeta.
  unfold run, solve_minimax_regret_optimization in H.
  split_bind_as H sa el Hfil. rewrite filter_eligible_eq in Hfil.
  destruct (refs_valid h refs); [|discriminate]. injection Hfil as <- <-.
  destruct (filter (is_eligible min_confidence_threshold h) refs) as [|k ks].
  { injection H as <- <-. destruct Hin. }
  split_bind_as H sb pr Hce. split_bind_as H sc V Hsl.
  pose proof (calculate_effective_returns_state pf (k :: ks) (mkState h [])) as [Hlog [_ Hpr]].
  rewrite Hce in Hlog. simpl in Hlog. apply Hpr in Hce. subst pr.
  unfold calculate_optimal_scenario_returns in Hsl.
  destruct (scenario_loop_state _ _ _ _ _ _ _ _ Hsl) as [_ (calls & Hc & Hf)].
  rewrite Hlog, app_nil_r in Hc.
  destruct (existsb (fun kv => is_neginf (snd kv)) V) eqn:Hex.
  { injection H as <- <-. rewrite Hc in Hin. exfalso. exact (not_main_call_in _ _ Hf Hin). }
  split_bind_as H sd inits Hml. split_bind_as H se prob Hb. split_bind_as H sf out Hcs.
  destruct sc as [hc lc]. rewrite mapM_load_eq in Hml.
  destruct (refs_valid hc (k :: ks)); [|discriminate]. injection Hml as <- <-.
  unfold lift in Hb. injection Hb as <- Hb.
  unfold call_solver in Hcs. injection Hcs as <- <-. simpl in Hc.
  assert (Hs1 : solve_log s1 = MainSolve prob :: lc).
  { destruct (cbc prob) as [msg|st vals0].
    - injection H as <- _. reflexivity.
    - rewrite (assemble_state _ _ _ _ _ _ _ _ H). reflexivity. }
  rewrite Hs1 in Hin.
  destruct Hin as [Hp|Hin]; [|rewrite Hc in Hin; exfalso; exact (not_main_call_in _ _ Hf Hin)].
  injection Hp as ->. rewrite Hcbc in H.
  pose proof (assemble_state _ _ _ _ _ _ _ _ H) as ->.
  unfold assemble in H. cbn [is_optimal] in H.
  split_bind_as H sg acc Hsel. destruct acc as [[sel tc] tar].
  split_bind_as H sh reg Hreg.
  unfold lift in Hreg. injection Hreg as <- Hreg.
  injection H as <- H. subst r. simpl.
  destruct (select_loop_spec _ _ _ _ _ _ _ _ _ _ Hsel) as (-> & Hsel' & Htc & Htar).
  simpl heap in *.
  split; [reflexivity|].
  split; [rewrite Hsel'; reflexivity|].
  split; [rewrite Htc; apply Qplus_0_l|].
  split.
  { intros s. destruct (Htar s 0) as (effs & t & Hm' & Ht & Heq); [destruct s; reflexivity|].
    exists effs, t. split; [exact Hm'|]. split; [exact Ht|]. rewrite Heq. ring. }
  split; [|reflexivity].
  intros s. destruct (regrets_of_spec _ _ _ _ Hreg s) as (v & t & Hv & Ht & Hg).
  destruct (no_neginf_get _ _ _ Hex Hv) as [q ->].
  exists q, t. split; [exact Hv|]. split; [exact Ht|]. exact Hg.
Qed.

(** *** C5 *)

(** C5 (counterexample): on the spec's end-to-end scenario, when the solve
    of scenario [best] raises, the run returns the status
    "Error in V_j_star calculation", but its [v_j_star] field is not empty:
    it holds the computed values [V*[med] = 80] and [V*[worst] = 50]. *)
Lemma v_j_star_kept_on_error :
  match run cbc_best_raises example_heap example_refs 15 (3 # 10) 40 calculate_gamma with
  | (_, inr r) =>
      status r = "Error in V_j_star calculation"%string /\
      dict_get (v_j_star r) Best = Some NegInf /\
      (exists q, dict_get (v_j_star r) Med = Some (Fin q) /\ q == 80) /\
      (exists q, dict_get (v_j_star r) Worst = Some (Fin q) /\ q == 50)
  | (_, inl _) => False
  end.
Proof.
  vm_compute. split; [reflexivity|]. split; [reflexivity|].
  split; eexists; (split; [reflexivity|]); reflexivity.
Qed.

(** C5 (as amended): when the eligible list is non-empty and the values
    [V*] computed by [calculate_optimal_scenario_returns] contain [-inf],
    the run returns status "Error in V_j_star calculation", an empty
    selection, [min_max_regret] [None], cost 0, every return 0, empty
    regrets, and [v_j_star] equal to the computed [V*]; the state is the one
    the scenario solves left, so the minimax solve is never invoked. *)
Theorem neginf_short_circuit cbc h refs total_budget min_confidence_threshold
    min_portfolio_worst_return pf el s1 pr s2 V :
  refs_valid h refs = true ->
  filter (is_eligible min_confidence_threshold h) refs = el ->
  el <> [] ->
  calculate_effective_returns pf el (mkState h []) = (s1, inr pr) ->
  calculate_optimal_scenario_returns cbc pr total_budget s1 = (s2, inr V) ->
  existsb (fun kv => is_neginf (snd kv)) V = true ->
  exists r, run cbc h refs total_budget min_confidence_threshold min_portfolio_worst_return pf
            = (s2, inr r) /\
    status r = "Error in V_j_star calculation"%string /\ selected_initiatives r = [] /\
    min_max_regret r = None /\ total_cost r = 0 /\
    (forall s, dict_get (total_actual_returns r) s = Some 0) /\
    regrets_for_selected_portfolio r = [] /\ v_j_star r = V /\
    (forall p, ~ In (MainSolve p) (solve_log s2)).
Proof.
  intros Hv Hel Hne Hce Hsl Hex.
  pose proof (calculate_effective_returns_state pf el (mkState h [])) as [Hlog _].
  rewrite Hce in Hlog. simpl in Hlog.
  pose proof Hsl as Hsl'. unfold calculate_optimal_scenario_returns in Hsl'.
  destruct (scenario_loop_state _ _ _ _ _ _ _ _ Hsl') as [_ (calls & Hc & Hf)].
  unfold run, solve_minimax_regret_optimization. unfold bind at 1.
  rewrite filter_eligible_eq, Hv, Hel.
  destruct el as [|k ks]; [contradiction|]. cbv beta iota.
  unfold bind at 1. rewrite Hce. cbv beta iota.
  unfold bind at 1. rewrite Hsl. cbv beta iota. rewrite Hex.
  eexists. split; [reflexivity|].
  split; [reflexivity|]. split; [reflexivity|]. split; [reflexivity|].
  split; [reflexivity|]. split; [intros []; reflexivity|].
  split; [reflexivity|]. split; [reflexivity|].
  intros p. rewrite Hc, Hlog, app_nil_r. exact (not_main_call_in _ _ Hf).
Qed.

(** ** The value of the expressions PuLP builds *)

Lemma lpvar_eqb_eq a b : lpvar_eqb a b = true -> a = b.
Proof.
  destruct a, b; simpl; try discriminate; [|reflexivity].
  intros H. apply String.eqb_eq in H. subst. reflexivity.
Qed.

Lemma aff_eval_add_term e t x :
  aff_eval (aff_add_term e t) x == aff_eval e x + x (fst t) * snd t.
Proof.
  induction e as [|[v c] e IH]; simpl.
  - ring.
  - destruct (lpvar_eqb (fst t) v) eqn:E.
    + apply lpvar_eqb_eq in E. rewrite E. simpl. ring.
    + simpl. rewrite IH. ring.
Qed.

Lemma aff_eval_add e1 e2 x : aff_eval (aff_add e1 e2) x == aff_eval e1 x + aff_eval e2 x.
Proof.
  unfold aff_add. revert e1; induction e2 as [|t e2 IH]; intros e1; simpl.
  - ring.
  - rewrite IH, aff_eval_add_term. ring.
Qed.

Lemma aff_eval_lpSum es x :
  aff_eval (lpSum es) x == sumQ (map (fun e => aff_eval e x) es).
Proof.
  unfold lpSum. assert (Hg : forall acc, aff_eval (fold_left aff_add es acc) x ==
                                         aff_eval acc x + sumQ (map (fun e => aff_eval e x) es)).
  { induction es as [|e es IH]; intros acc; simpl; [ring|].
    rewrite IH, aff_eval_add. ring. }
  rewrite Hg. simpl. ring.
Qed.

Lemma aff_eval_lp_mul v c x : aff_eval (lp_mul v c) x == x v * c.
Proof.
  unfold lp_mul. destruct (Qeq_bool c 0) eqn:E; simpl.
  - apply Qeq_bool_iff in E. rewrite E. ring.
  - ring.
Qed.

Lemma affine_value_total e x :
  exists q, affine_value e (fun v => Some (x v)) = Some q /\ q == aff_eval e x.
Proof.
  unfold affine_value.
  assert (Hg : forall a, exists q, fold_left (fun acc t =>
      match acc, Some (x (fst t)) with
      | Some s, Some y => Some (s + y * snd t)
      | _, _ => None
      end) e (Some a) = Some q /\ q == a + aff_eval e x).
  { induction e as [|t e IH]; intros a; simpl.
    - exists a. split; [reflexivity|]. ring.
    - destruct (IH (a + x (fst t) * snd t)) as (q & Hq & Heq).
      exists q. split; [exact Hq|]. rewrite Heq. ring. }
  destruct (Hg 0) as (q & Hq & Heq). exists q. split; [exact Hq|]. rewrite Heq. ring.
Qed.

Lemma sumQ_map_ext {A} (f g : A -> Q) l :
  (forall a, In a l -> f a == g a) -> sumQ (map f l) == sumQ (map g l).
Proof.
  induction l as [|a l IH]; intros H; simpl; [reflexivity|].
  rewrite (H a (or_introl eq_refl)), IH; [reflexivity|].
  intros b Hb. apply H. right. exact Hb.
Qed.

Lemma sumQ_zero l : (forall q, In q l -> q == 0) -> sumQ l == 0.
Proof.
  induction l as [|q l IH]; intros H; simpl; [reflexivity|].
  rewrite (H q (or_introl eq_refl)), IH; [reflexivity|].
  intros r Hr. apply H. right. exact Hr.
Qed.

Lemma sumQ_nonneg l : (forall q, In q l -> 0 <= q) -> 0 <= sumQ l.
Proof.
  induction l as [|q l IH]; intros H; simpl; [apply Qle_refl|].
  assert (0 <= q) by (apply H; left; reflexivity).
  assert (0 <= sumQ l) by (apply IH; intros r Hr; apply H; right; exact Hr).
  lra.
Qed.

Lemma sumQ_nonneg_zero l :
  (forall q, In q l -> 0 <= q) -> sumQ l <= 0 -> forall q, In q l -> q == 0.
Proof.
  induction l as [|q l IH]; intros H Hs r Hr; simpl in *; [destruct Hr|].
  assert (0 <= q) by (apply H; left; reflexivity).
  assert (0 <= sumQ l) by (apply sumQ_nonneg; intros t Ht; apply H; right; exact Ht).
  destruct Hr as [<-|Hr]; [lra|].
  apply IH; [intros t Ht; apply H; right; exact Ht | lra | exact Hr].
Qed.

Lemma mapE_In {A B} (f : A -> exn + B) l ys y :
  mapE f l = inr ys -> In y ys -> exists a, In a l /\ f a = inr y.
Proof.
  revert ys; induction l as [|a l IH]; intros ys H Hy; simpl in H.
  - injection H as <-. destruct Hy.
  - destruct (f a) as [e|b] eqn:Ef; [discriminate|].
    destruct (mapE f l) as [e|ys'] eqn:Er; [discriminate|].
    injection H as <-. destruct Hy as [<-|Hy].
    + exists a. split; [left; reflexivity|exact Ef].
    + destruct (IH ys' eq_refl Hy) as (a' & Ha' & Hf').
      exists a'. split; [right; exact Ha'|exact Hf'].
Qed.

Lemma mapE_succeeds {A B} (f : A -> exn + B) l :
  (forall a, In a l -> exists b, f a = inr b) -> exists ys, mapE f l = inr ys.
Proof.
  induction l as [|a l IH]; intros H; simpl; [eexists; reflexivity|].
  destruct (H a (or_introl eq_refl)) as [b ->].
  destruct IH as [ys ->]; [intros a' Ha'; apply H; right; exact Ha'|].
  eexists; reflexivity.
Qed.

(** At budget 0 with positive costs, the only feasible point of a scenario
    knapsack selects nothing, so its objective is 0. *)
Lemma zero_budget_objective inits s p x :
  build_ideal_problem inits s 0 = inr p ->
  (forall i, In i inits -> 0 < cost i) ->
  feasible p x -> aff_eval (p_objective p) x == 0.
Proof.
  intros Hb Hc (Hbin & _ & Hcons). unfold build_ideal_problem in Hb.
  destruct (mapE _ inits) as [e|ts] eqn:Hts; [discriminate|].
  injection Hb as <-. cbn [p_objective p_constraints p_binaries] in *.
  specialize (Hcons _ (or_introl eq_refl)). unfold satisfies in Hcons.
  cbn [c_expr c_sense c_rhs] in Hcons.
  rewrite aff_eval_lpSum, map_map in Hcons.
  assert (Hz : forall i, In i inits -> x (Select (i_id i)) == 0).
  { intros i Hi.
    assert (Hx : x (Select (i_id i)) == 0 \/ x (Select (i_id i)) == 1)
      by (apply Hbin; apply in_map_iff; exists i; split; [reflexivity|exact Hi]).
    assert (Hall : forall q, In q (map (fun a => aff_eval (lp_mul (Select (i_id a)) (cost a)) x) inits) -> 0 <= q).
    { intros q Hq. apply in_map_iff in Hq. destruct Hq as (a & <- & Ha).
      rewrite aff_eval_lp_mul.
      assert (Hxa : x (Select (i_id a)) == 0 \/ x (Select (i_id a)) == 1)
        by (apply Hbin; apply in_map_iff; exists a; split; [reflexivity|exact Ha]).
      pose proof (Hc a Ha). destruct Hxa as [E|E]; rewrite E; lra. }
    pose proof (sumQ_nonneg_zero _ Hall Hcons (aff_eval (lp_mul (Select (i_id i)) (cost i)) x)
                  (in_map (fun a => aff_eval (lp_mul (Select (i_id a)) (cost a)) x) _ _ Hi)) as H0.
    rewrite aff_eval_lp_mul in H0. pose proof (Hc i Hi).
    destruct Hx as [E|E]; [exact E|]. rewrite E in H0. lra. }
  rewrite aff_eval_lpSum. apply sumQ_zero.
  intros q Hq. apply in_map_iff in Hq. destruct Hq as (t & <- & Ht).
  destruct (mapE_In _ _ _ _ Hts Ht) as (i & Hi & Hf).
  destruct (eff_lookup i s) as [e|v]; [discriminate|]. injection Hf as <-.
  rewrite aff_eval_lp_mul, (Hz i Hi). ring.
Qed.

Lemma build_ideal_problem_succeeds inits s b :
  (forall i, In i inits -> exists v, eff_lookup i s = inr v) ->
  exists p, build_ideal_problem inits s b = inr p.
Proof.
  intros H. unfold build_ideal_problem.
  destruct (mapE_succeeds (fun i => match eff_lookup i s with
                                    | inl e => inl e
                                    | inr v => inr (lp_mul (Select (i_id i)) v)
                                    end) inits) as [ts ->].
  { intros i Hi. destruct (H i Hi) as [v ->]. eexists; reflexivity. }
  eexists; reflexivity.
Qed.

Lemma mapE_In_rev {A B} (f : A -> exn + B) l ys a :
  mapE f l = inr ys -> In a l -> exists y, f a = inr y /\ In y ys.
Proof.
  revert ys; induction l as [|a' l IH]; intros ys H Ha; [destruct Ha|]. simpl in H.
  destruct (f a') as [e|b] eqn:Ef; [discriminate|].
  destruct (mapE f l) as [e|ys'] eqn:Er; [discriminate|]. injection H as <-.
  destruct Ha as [<-|Ha].
  - exists b. split; [exact Ef|left; reflexivity].
  - destruct (IH ys' eq_refl Ha) as (y & Hy & Hin). exists y. split; [exact Hy|right; exact Hin].
Qed.

Lemma aff_add_term_not_nil e t : aff_add_term e t <> [].
Proof. destruct e as [|[v c] e]; simpl; [discriminate|]. destruct (lpvar_eqb (fst t) v); discriminate. Qed.

Lemma fold_aff_add_term_nil t acc : fold_left aff_add_term t acc = [] -> acc = [] /\ t = [].
Proof.
  revert acc; induction t as [|u t IH]; intros acc H; [split; [exact H|reflexivity]|].
  simpl in H. destruct (IH _ H) as [H1 _]. exfalso. exact (aff_add_term_not_nil _ _ H1).
Qed.

Lemma fold_aff_add_nil ts acc :
  fold_left aff_add ts acc = [] -> acc = [] /\ forall t, In t ts -> t = [].
Proof.
  revert acc; induction ts as [|t ts IH]; intros acc H; [split; [exact H|intros ? []]|].
  simpl in H. destruct (IH _ H) as [H1 H2]. unfold aff_add in H1.
  destruct (fold_aff_add_term_nil _ _ H1) as [-> ->].
  split; [reflexivity|]. intros t' [<-|Ht']; [reflexivity|exact (H2 t' Ht')].
Qed.

(** A scenario knapsack in which some record has a non-zero effective return
    has an objective with a term. *)
Lemma ideal_objective_not_nil inits s b p i v :
  build_ideal_problem inits s b = inr p -> In i inits -> eff_lookup i s = inr v -> ~ v == 0 ->
  p_objective p <> [].
Proof.
  unfold build_ideal_problem. intros H Hi Hv Hnz.
  destruct (mapE _ inits) as [e|ts] eqn:Hts; [discriminate|]. injection H as <-.
  cbn [p_objective]. intros Hnil. unfold lpSum in Hnil.
  destruct (fold_aff_add_nil _ _ Hnil) as [_ Hall].
  destruct (mapE_In_rev _ _ _ i Hts Hi) as (y & Hy & Hin).
  rewrite Hv in Hy. injection Hy as <-. specialize (Hall _ Hin). unfold lp_mul in Hall.
  destruct (Qeq_bool v 0) eqn:E; [apply Qeq_bool_iff in E; contradiction|discriminate].
Qed.

(** One pass of the scenario loop whose solve reports a feasible optimum of
    a problem whose objective has a term. *)
Lemma scenario_loop_step cbc l b s ss V h log p x :
  refs_valid h l = true ->
  build_ideal_problem (deref h l) s b = inr p ->
  p_objective p <> [] ->
  cbc p = SolveDone LpStatusOptimal (fun v => Some (x v)) ->
  exists q, q == aff_eval (p_objective p) x /\
    scenario_loop cbc l b (s :: ss) V (mkState h log) =
    scenario_loop cbc l b ss (dict_set V s (Fin q)) (mkState h (IdealSolve s p :: log)).
Proof.
  intros Hv Hb Hne Hc. destruct (affine_value_total (p_objective p) x) as (q & Hq0 & Heq).
  assert (Hq : objective_value (p_objective p) (fun v => Some (x v)) = Some q).
  { unfold objective_value. destruct (p_objective p); [contradiction|exact Hq0]. }
  exists q. split; [exact Heq|].
  simpl scenario_loop. unfold bind at 1. rewrite mapM_load_eq, Hv. cbv beta iota.
  unfold bind at 1, lift at 1. rewrite Hb. cbv beta iota.
  unfold bind at 1, call_solver at 1. cbn [heap solve_log]. rewrite Hc. simpl is_optimal.
  cbv beta iota. rewrite Hq. reflexivity.
Qed.

(** *** C8 *)

(** C8 (counterexample): one initiative of cost 0 (a non-negative cost),
    with effective returns 10, 5, 2.  At budget 0 it is still affordable:
    selecting it is an optimal point of every scenario knapsack, and a
    solver reporting that optimum gives [V*[best] = 10], not 0. *)
Lemma zero_cost_initiative_fits_zero_budget :
  (forall i, In i free_heap -> 0 <= cost i) /\
  (forall s p, build_ideal_problem (deref free_heap [0%nat]) s 0 = inr p ->
     lp_optimal p (fun _ => 1) /\
     cbc_all_one p = SolveDone LpStatusOptimal (fun v => Some ((fun _ => 1) v))) /\
  match calculate_optimal_scenario_returns cbc_all_one [0%nat] 0 (mkState free_heap []) with
  | (_, inr V) => dict_get V Best = Some (Fin 10)
  | (_, inl _) => False
  end.
Proof.
  split; [intros i [<-|[]]; simpl; lra|].
  split; [|vm_compute; reflexivity].
  intros s p Hp. split; [|reflexivity].
  destruct s; vm_compute in Hp; injection Hp as <-;
    (split;
     [split; [intros v [<-|[]]; right; reflexivity|];
      split; [intros v []|intros c [<-|[]]; unfold satisfies; simpl; lra]
     |intros y (Hb & _ & _); simpl;
      destruct (Hb (Select "A") (or_introl eq_refl)) as [E|E]; simpl in E; lra]).
Qed.

(** Why the amended C8 asks for a non-zero effective return in every
    scenario: with one initiative of cost 1 whose effective returns are all
    0, every objective is constant, [lp.value] gives [None] although the
    solve is [Optimal], and the [:.2f] format raises [TypeError]. *)
Lemma constant_objective_raises :
  match calculate_optimal_scenario_returns cbc_all_zero [0%nat] 0 (mkState zero_paid_heap []) with
  | (_, inl e) => e = format_none_error
  | (_, inr _) => False
  end.
Proof. vm_compute. reflexivity. Qed.

(** C8 (as amended): at budget 0, when every initiative has a strictly
    positive cost and its effective returns, every scenario has an
    initiative whose effective return is not 0, and the solver answers each
    scenario knapsack with [Optimal] and a feasible point, every value
    [V*[s]] computed by [calculate_optimal_scenario_returns] is 0. *)
Theorem zero_budget_ideal_values_zero cbc h l log :
  refs_valid h l = true ->
  (forall i, In i (deref h l) -> 0 < cost i /\ forall s, exists v, eff_lookup i s = inr v) ->
  (forall s, exists i v, In i (deref h l) /\ eff_lookup i s = inr v /\ ~ v == 0) ->
  (forall s p, build_ideal_problem (deref h l) s 0 = inr p ->
     exists x, feasible p x /\ cbc p = SolveDone LpStatusOptimal (fun v => Some (x v))) ->
  exists s' V, calculate_optimal_scenario_returns cbc l 0 (mkState h log) = (s', inr V) /\
    forall s, exists q, dict_get V s = Some (Fin q) /\ q == 0.
Proof.
  intros Hv Hi Hnz Hx.
  assert (Hpos : forall i, In i (deref h l) -> 0 < cost i) by (intros i Hin; apply Hi, Hin).
  assert (Hstep : forall s, exists p x, build_ideal_problem (deref h l) s 0 = inr p /\
                    p_objective p <> [] /\
                    feasible p x /\ cbc p = SolveDone LpStatusOptimal (fun v => Some (x v))).
  { intros s. destruct (build_ideal_problem_succeeds (deref h l) s 0) as [p Hp].
    { intros i Hin. apply Hi, Hin. }
    destruct (Hnz s) as (i & v & Hin & Hv' & Hv0).
    destruct (Hx s p Hp) as (x & Hf & Hc). exists p, x. split; [exact Hp|].
    split; [exact (ideal_objective_not_nil _ _ _ _ _ _ Hp Hin Hv' Hv0)|]. split; assumption. }
  destruct (Hstep Best) as (p1 & x1 & Hb1 & Hn1 & Hf1 & Hc1).
  destruct (Hstep Med) as (p2 & x2 & Hb2 & Hn2 & Hf2 & Hc2).
  destruct (Hstep Worst) as (p3 & x3 & Hb3 & Hn3 & Hf3 & Hc3).
  unfold calculate_optimal_scenario_returns, scenarios.
  destruct (scenario_loop_step cbc l 0 Best [Med; Worst] [] h log p1 x1 Hv Hb1 Hn1 Hc1)
    as (q1 & Hq1 & ->).
  destruct (scenario_loop_step cbc l 0 Med [Worst] (dict_set [] Best (Fin q1)) h
              (IdealSolve Best p1 :: log) p2 x2 Hv Hb2 Hn2 Hc2) as (q2 & Hq2 & ->).
  destruct (scenario_loop_step cbc l 0 Worst [] (dict_set (dict_set [] Best (Fin q1)) Med (Fin q2))
              h (IdealSolve Med p2 :: IdealSolve Best p1 :: log) p3 x3 Hv Hb3 Hn3 Hc3)
    as (q3 & Hq3 & ->).
  do 2 eexists. split; [reflexivity|].
  intros []; eexists; (split; [reflexivity|]).
  - rewrite Hq1. exact (zero_budget_objective _ _ _ _ Hb1 Hpos Hf1).
  - rewrite Hq2. exact (zero_budget_objective _ _ _ _ Hb2 Hpos Hf2).
  - rewrite Hq3. exact (zero_budget_objective _ _ _ _ Hb3 Hpos Hf3).
Qed.

(** *** C9 *)

Ltac in_cases H := simpl in H; repeat destruct H as [<-|H]; try contradiction.

(** C9: two initiatives of confidence [1.0] (in [[0,1]]); [A] costs 0 and
    returns 0 in every scenario, so [x['A'] * 0] adds no term and [Select_A]
    occurs in no expression of either problem.  Every solve succeeds, and
    [pulp_point] is an optimum of each problem solved; PuLP then leaves
    [x['A'].varValue] at [None], and the test [varValue > 0.5] of line 126,
    outside any [try], raises [TypeError] to the caller. *)
Theorem zero_coefficient_initiative_raises :
  forallb (fun i => Qle_bool 0 (confidence i) && Qle_bool (confidence i) 1) zero_heap = true /\
  (forall c, In c (solve_log (fst (run cbc_pulp zero_heap [0; 1]%nat 10 0 0 calculate_gamma))) ->
     lp_optimal (call_problem c) pulp_point) /\
  snd (run cbc_pulp zero_heap [0; 1]%nat 10 0 0 calculate_gamma) = inl none_gt_error.
Proof.
  split; [reflexivity|]. split; [|vm_compute; reflexivity].
  intros c Hc. vm_compute in Hc. in_cases Hc;
    (split;
     [split; [intros v Hv; in_cases Hv; right; reflexivity|];
      split; [intros v Hv; in_cases Hv; simpl; lra|];
      intros c Hc; in_cases Hc; unfold satisfies; simpl; lra
     |intros y (Hb & Hn & _); simpl;
      first [specialize (Hn Max_Regret (or_introl eq_refl)); lra
            |destruct (Hb (Select "B") (or_intror (or_introl eq_refl))) as [E|E]; lra]]).
Qed.

(** ** Instances of the theorems on concrete inputs *)

(** C1 on the end-to-end scenario, with a solver that selects [A]. *)
Lemma optimal_result_assembly_witness :
  exists s1 r p vals,
    run cbc_select_A example_heap example_refs 15 (3 # 10) 40 calculate_gamma = (s1, inr r) /\
    In (MainSolve p) (solve_log s1) /\ cbc_select_A p = SolveDone LpStatusOptimal vals /\
    status r = "Optimal"%string /\ selected_initiatives r = ["A"%string].
Proof.
  destruct (run cbc_select_A example_heap example_refs 15 (3 # 10) 40 calculate_gamma)
    as [s1 [e|r]] eqn:E; [vm_compute in E; discriminate|].
  assert (Hlog : exists p rest, solve_log s1 = MainSolve p :: rest).
  { pose proof E as E'. vm_compute in E'. injection E' as Hs _. subst s1.
    do 2 eexists. reflexivity. }
  destruct Hlog as (p & rest & Hl).
  assert (Hin : In (MainSolve p) (solve_log s1)) by (rewrite Hl; left; reflexivity).
  set (vals := match cbc_select_A p with SolveDone _ v => v | SolveRaised _ => fun _ => None end).
  assert (Hc : cbc_select_A p = SolveDone LpStatusOptimal vals) by reflexivity.
  pose proof (optimal_result_assembly cbc_select_A example_heap example_refs 15 (3 # 10) 40
                calculate_gamma s1 r p vals E Hin Hc) as (Hst & Hsel & _).
  exists s1, r, p, vals.
  split; [reflexivity|]. split; [exact Hin|]. split; [exact Hc|]. split; [exact Hst|].
  rewrite Hsel. pose proof E as E'. vm_compute in E'. injection E' as Hs _. subst s1.
  vm_compute. reflexivity.
Defined.

(** C3 on the records of the end-to-end scenario. *)
Lemma calculate_effective_returns_blend_witness :
  exists h', calculate_effective_returns calculate_gamma example_refs (mkState example_heap []) =
             (mkState h' [], inr example_refs).
Proof.
  destruct (calculate_effective_returns_blend example_heap example_refs []) as (h' & E & _).
  { intros k Hk. in_cases Hk; eexists; (split; [reflexivity|]);
      split; apply Qle_bool_iff; reflexivity. }
  exists h'. exact E.
Defined.

(** C4 with [C] alone (confidence 0.2) below the threshold 0.3. *)
Lemma no_eligible_initiatives_short_circuit_witness :
  exists r, run cbc_select_A example_heap [2%nat] 15 (3 # 10) 40 calculate_gamma =
            (mkState example_heap [], inr r) /\
            status r = "No Eligible Initiatives"%string.
Proof.
  destruct (no_eligible_initiatives_short_circuit cbc_select_A example_heap [2%nat] 15 (3 # 10)
              40 calculate_gamma) as (r & E & Hs & _).
  { intros k Hk. in_cases Hk. eexists. split; [reflexivity|]. vm_compute. reflexivity. }
  exists r. split; assumption.
Defined.

(** C5 on the end-to-end scenario where the solve of [best] raises. *)
Lemma neginf_short_circuit_witness :
  exists s2 r,
    run cbc_best_raises example_heap example_refs 15 (3 # 10) 40 calculate_gamma = (s2, inr r) /\
    status r = "Error in V_j_star calculation"%string /\
    (forall p, ~ In (MainSolve p) (solve_log s2)).
Proof.
  destruct (calculate_effective_returns calculate_gamma [0; 1]%nat (mkState example_heap []))
    as [s1 [e|pr]] eqn:E1; [vm_compute in E1; discriminate|].
  pose proof E1 as E1'. vm_compute in E1'. injection E1' as Hs1 Hpr. subst pr.
  destruct (calculate_optimal_scenario_returns cbc_best_raises [0; 1]%nat 15 s1)
    as [s2 [e|V]] eqn:E2; [rewrite <- Hs1 in E2; vm_compute in E2; discriminate|].
  pose proof E2 as E2'. rewrite <- Hs1 in E2'. vm_compute in E2'. injection E2' as Hs2 HV.
  subst V.
  destruct (neginf_short_circuit cbc_best_raises example_heap example_refs 15 (3 # 10) 40
              calculate_gamma [0; 1]%nat s1 [0; 1]%nat s2
              [(Best, NegInf); (Med, Fin (320 # 4)); (Worst, Fin (200 # 4))])
    as (r & Er & Hs & _ & _ & _ & _ & _ & _ & Hm);
    [reflexivity | vm_compute; reflexivity | discriminate | exact E1 | exact E2 | reflexivity |].
  exists s2, r. split; [exact Er|]. split; [exact Hs|exact Hm].
Defined.

(** C6 (as amended) on the run whose minimax solve is not solved. *)
Lemma result_status_in_code_set_witness :
  exists s1 r,
    run cbc_main_not_solved example_heap example_refs 15 (3 # 10) 40 calculate_gamma = (s1, inr r) /\
    in_code_status_set (status r) = true.
Proof.
  destruct (run cbc_main_not_solved example_heap example_refs 15 (3 # 10) 40 calculate_gamma)
    as [s1 [e|r]] eqn:E; [vm_compute in E; discriminate|].
  exists s1, r. split; [reflexivity|].
  exact (result_status_in_code_set _ _ _ _ _ _ _ _ _ E).
Defined.

(** C7 on the same run, whose status is "Not Solved". *)
Lemma non_optimal_result_is_empty_witness :
  exists s1 r,
    run cbc_main_not_solved example_heap example_refs 15 (3 # 10) 40 calculate_gamma = (s1, inr r) /\
    status r <> "Optimal"%string /\ selected_initiatives r = [] /\ min_max_regret r = None.
Proof.
  destruct (run cbc_main_not_solved example_heap example_refs 15 (3 # 10) 40 calculate_gamma)
    as [s1 [e|r]] eqn:E; [vm_compute in E; discriminate|].
  assert (Hst : status r <> "Optimal"%string).
  { pose proof E as E'. vm_compute in E'. injection E' as _ <-. discriminate. }
  exists s1, r. split; [reflexivity|]. split; [exact Hst|].
  destruct (non_optimal_result_is_empty _ _ _ _ _ _ _ _ _ E Hst) as (Hs & Hm & _).
  split; assumption.
Defined.

(** C8 (as amended) on one initiative of cost 1, with a solver answering the
    empty selection. *)
Lemma zero_budget_ideal_values_zero_witness :
  exists s' V, calculate_optimal_scenario_returns cbc_all_zero [0%nat] 0 (mkState paid_heap []) =
               (s', inr V) /\
    forall s, exists q, dict_get V s = Some (Fin q) /\ q == 0.
Proof.
  apply zero_budget_ideal_values_zero.
  - reflexivity.
  - intros i Hi. in_cases Hi. split; [vm_compute; reflexivity|].
    intros []; eexists; reflexivity.
  - intros []; exists paid_A; eexists; (split; [left; reflexivity|]);
      (split; [reflexivity|]); intros E; vm_compute in E; discriminate.
  - intros s p Hp. exists (fun _ => 0). split; [|reflexivity].
    destruct s; vm_compute in Hp; injection Hp as <-;
      (split; [intros v Hv; in_cases Hv; left; reflexivity|];
       split; [intros v Hv; in_cases Hv | intros c Hc; in_cases Hc; unfold satisfies; simpl; lra]).
Defined.

(** * Further properties of the code *)

(** ** The effective-return calculator *)

Lemma effective_returns_of_get g i s :
  dict_get (effective_returns_of g i) s = Some ((1 - g) * R_base i s + g * R_worst i).
Proof. destruct s; reflexivity. Qed.

Lemma replace_nth_same {A} (l : list A) n x : nth_error l n = Some x -> replace_nth l n x = l.
Proof.
  revert n; induction l as [|y l IH]; intros [|n] H; simpl in *; try discriminate.
  - injection H as ->. reflexivity.
  - f_equal. apply IH. exact H.
Qed.

Lemma for_each_app (f : nat -> M unit) l1 l2 s :
  for_each f (l1 ++ l2) s =
  match for_each f l1 s with
  | (s', inl e) => (s', inl e)
  | (s', inr _) => for_each f l2 s'
  end.
Proof.
  revert s; induction l1 as [|r l1 IH]; intros s; [reflexivity|].
  simpl app. rewrite !for_each_cons. destruct (f r s) as [s1 [e|u]]; [reflexivity|].
  apply IH.
Qed.

(** A successful pass has met every reference with a record on which the
    penalty model succeeded. *)
Lemma for_each_ok_inv pf l h log s' u :
  for_each (process_initiative pf) l (mkState h log) = (s', inr u) ->
  forall k, In k l -> exists i g, nth_error h k = Some i /\ pf (confidence i) = inr g.
Proof.
  revert h; induction l as [|r l IH]; intros h H k Hk; [destruct Hk|].
  rewrite for_each_cons, process_initiative_eq in H.
  destruct (nth_error h r) as [i|] eqn:Hi; [|discriminate].
  destruct (pf (confidence i)) as [e|g] eqn:Hg; [discriminate|].
  destruct (Nat.eq_dec k r) as [->|Hne]; [exists i, g; split; assumption|].
  destruct Hk as [Hk|Hk]; [congruence|].
  destruct (IH _ H k Hk) as (i1 & g1 & Hi1 & Hg1).
  rewrite nth_error_replace_nth_neq in Hi1 by exact Hne.
  exists i1, g1. split; assumption.
Qed.

(** A pass over references whose records are already processed changes
    nothing. *)
Lemma for_each_fixed pf l h log :
  (forall k, In k l -> exists j g, nth_error h k = Some j /\ pf (confidence j) = inr g /\
                                   augment j g = j) ->
  for_each (process_initiative pf) l (mkState h log) = (mkState h log, inr tt).
Proof.
  induction l as [|r l IH]; intros H; [reflexivity|].
  rewrite for_each_cons, process_initiative_eq.
  destruct (H r (or_introl eq_refl)) as (j & g & Hj & Hg & Ha).
  rewrite Hj, Hg, Ha, replace_nth_same by exact Hj.
  apply IH. intros k Hk. apply H. right. exact Hk.
Qed.

(** [calculate_effective_returns] stops at the first record on which the
    penalty model raises: the records before it are augmented, that record
    and every later one are left as they were. *)
Lemma for_each_abort pf pre k post h log i e :
  (forall k', In k' pre -> exists i' g, nth_error h k' = Some i' /\ pf (confidence i') = inr g) ->
  nth_error h k = Some i -> pf (confidence i) = inl e ->
  exists h',
    for_each (process_initiative pf) (pre ++ k :: post) (mkState h log) = (mkState h' log, inl e) /\
    (forall k', In k' pre -> exists i' g, nth_error h k' = Some i' /\ pf (confidence i') = inr g /\
                                          nth_error h' k' = Some (augment i' g)) /\
    (forall k', ~ In k' pre -> nth_error h' k' = nth_error h k').
Proof.
  intros Hpre Hi He.
  destruct (for_each_success pf pre h log Hpre) as (h' & Hrun & Hh').
  assert (Hframe : forall k', ~ In k' pre -> nth_error h' k' = nth_error h k').
  { intros k' Hk'. pose proof (proj2 (for_each_frame pf pre (mkState h log)) k' Hk') as Hf.
    rewrite Hrun in Hf. exact Hf. }
  assert (Hk : ~ In k pre).
  { intros Hin. destruct (Hpre k Hin) as (i' & g & Hi' & Hg).
    rewrite Hi in Hi'. injection Hi' as <-. congruence. }
  exists h'. split; [|split; [exact Hh'|exact Hframe]].
  rewrite for_each_app, Hrun, for_each_cons, process_initiative_eq, (Hframe k Hk), Hi, He.
  reflexivity.
Qed.

(** X2: [calculate_effective_returns] is idempotent: run again on the records
    it has processed, it returns normally and changes nothing. *)
Theorem calculate_effective_returns_idempotent pf l h h' log :
  calculate_effective_returns pf l (mkState h log) = (mkState h' log, inr l) ->
  calculate_effective_returns pf l (mkState h' log) = (mkState h' log, inr l).
Proof.
  unfold calculate_effective_returns, bind. intros H.
  destruct (for_each (process_initiative pf) l (mkState h log)) as [s1 [e|u]] eqn:E;
    [discriminate|].
  injection H as Hs1. subst s1.
  pose proof (for_each_ok_inv _ _ _ _ _ _ E) as Hok.
  destruct (for_each_success pf l h log Hok) as (h2 & E2 & Hh2).
  rewrite E in E2. injection E2 as <-.
  rewrite for_each_fixed; [reflexivity|].
  intros k Hk. destruct (Hh2 k Hk) as (i & g & _ & Hg & Hk').
  exists (augment i g), g. split; [exact Hk'|].
  rewrite augment_confidence. split; [exact Hg|apply augment_idem].
Qed.

(** X3: when the penalty model raises on the record at [k] and succeeds on
    every record before it, [calculate_effective_returns] raises that
    exception; the records before [k] have already been augmented in place,
    while every other record (the one at [k] and those after it) is left
    unchanged. *)
Theorem calculate_effective_returns_partial pf pre k post h log i e :
  (forall k', In k' pre -> exists i' g, nth_error h k' = Some i' /\ pf (confidence i') = inr g) ->
  nth_error h k = Some i -> pf (confidence i) = inl e ->
  exists h',
    calculate_effective_returns pf (pre ++ k :: post) (mkState h log) = (mkState h' log, inl e) /\
    (forall k', In k' pre -> exists i' g, nth_error h k' = Some i' /\ pf (confidence i') = inr g /\
                                          nth_error h' k' = Some (augment i' g)) /\
    (forall k', ~ In k' pre -> nth_error h' k' = nth_error h k').
Proof.
  intros Hpre Hi He.
  destruct (for_each_abort pf pre k post h log i e Hpre Hi He) as (h' & Hrun & Hh' & Hf).
  exists h'. split; [|split; assumption].
  unfold calculate_effective_returns, bind. rewrite Hrun. reflexivity.
Qed.

(** The first reference of a list on which the penalty model raises. *)
Lemma first_failure (pf : Q -> exn + Q) h l :
  (forall k, In k l -> exists i, nth_error h k = Some i) ->
  (forall k, In k l -> exists i g, nth_error h k = Some i /\ pf (confidence i) = inr g) \/
  exists pre k post i e, l = pre ++ k :: post /\
    (forall k', In k' pre -> exists i' g, nth_error h k' = Some i' /\ pf (confidence i') = inr g) /\
    nth_error h k = Some i /\ pf (confidence i) = inl e.
Proof.
  induction l as [|r l IH]; intros Hl; [left; intros k []|].
  destruct (Hl r (or_introl eq_refl)) as [i Hi].
  destruct (pf (confidence i)) as [e|g] eqn:Hg.
  - right. exists [], r, l, i, e. split; [reflexivity|]. split; [intros k' []|]. split; assumption.
  - destruct IH as [Hall|(pre & k & post & i' & e & -> & Hpre & Hk & He)].
    + intros k Hk. apply Hl. right. exact Hk.
    + left. intros k [<-|Hk]; [exists i, g; split; assumption|]. apply Hall. exact Hk.
    + right. exists (r :: pre), k, post, i', e. split; [reflexivity|].
      split; [|split; assumption].
      intros k' [<-|Hk']; [exists i, g; split; assumption|]. apply Hpre. exact Hk'.
Qed.

Lemma refs_valid_In h l k : refs_valid h l = true -> In k l -> exists i, nth_error h k = Some i.
Proof.
  unfold refs_valid. rewrite forallb_forall. intros H Hk. specialize (H k Hk).
  destruct (nth_error h k) as [i|]; [exists i; reflexivity|discriminate].
Qed.

(** X4: when the penalty model raises on some eligible record, the run
    raises, with an exception the penalty model raises on an eligible
    record, and no solver has been called. *)
Theorem penalty_error_aborts_run cbc h refs total_budget min_confidence_threshold
    min_portfolio_worst_return pf k i e :
  refs_valid h refs = true -> In k refs -> is_eligible min_confidence_threshold h k = true ->
  nth_error h k = Some i -> pf (confidence i) = inl e ->
  exists s e' k' i',
    run cbc h refs total_budget min_confidence_threshold min_portfolio_worst_return pf
      = (s, inl e') /\ solve_log s = [] /\
    In k' refs /\ is_eligible min_confidence_threshold h k' = true /\
    nth_error h k' = Some i' /\ pf (confidence i') = inl e'.
Proof.
  intros Hv Hk Hel Hi He.
  set (el := filter (is_eligible min_confidence_threshold h) refs).
  assert (Hkel : In k el) by (apply filter_In_eligible; split; assumption).
  destruct (first_failure pf h el) as [Hall|(pre & k' & post & i' & e' & Hsplit & Hpre & Hi' & He')].
  { intros k0 Hk0. apply filter_In_eligible in Hk0. apply (refs_valid_In h refs); [exact Hv|apply Hk0]. }
  { destruct (Hall k Hkel) as (i0 & g & Hi0 & Hg). rewrite Hi in Hi0. injection Hi0 as <-.
    congruence. }
  destruct (for_each_abort pf pre k' post h [] i' e' Hpre Hi' He') as (h' & Hrun & _).
  assert (Hk'el : In k' el) by (rewrite Hsplit; apply in_or_app; right; left; reflexivity).
  apply filter_In_eligible in Hk'el.
  exists (mkState h' []), e', k', i'.
  split; [|split; [reflexivity|split; [apply Hk'el|split; [apply Hk'el|split; assumption]]]].
  unfold run, solve_minimax_regret_optimization. unfold bind at 1.
  rewrite filter_eligible_eq, Hv. fold el. rewrite Hsplit. rewrite <- Hsplit in Hrun.
  destruct (pre ++ k' :: post) as [|a l'] eqn:Hl; [destruct pre; discriminate|].
  cbv beta iota. unfold bind at 1, calculate_effective_returns at 1, bind at 1.
  rewrite <- Hl, Hsplit in *. rewrite Hrun. reflexivity.
Qed.

(** ** The scenario solves *)

Lemma scenario_loop_step_inv cbc l b s ss V h log s' V' :
  scenario_loop cbc l b (s :: ss) V (mkState h log) = (s', inr V') ->
  exists p v, build_ideal_problem (deref h l) s b = inr p /\
    ideal_entry (cbc p) (p_objective p) v /\
    scenario_loop cbc l b ss (dict_set V s v) (mkState h (IdealSolve s p :: log)) = (s', inr V').
Proof.
  intros H. simpl scenario_loop in H. unfold bind, lift, call_solver in H.
  rewrite mapM_load_eq in H. cbn [heap solve_log] in H.
  destruct (refs_valid h l); [|discriminate].
  destruct (build_ideal_problem (deref h l) s b) as [e|p]; [discriminate|].
  exists p. destruct (cbc p) as [msg|st vals] eqn:Hc.
  - exists NegInf. split; [reflexivity|]. split; [reflexivity|exact H].
  - unfold ideal_entry. destruct (is_optimal st).
    + destruct (objective_value (p_objective p) vals) as [q|] eqn:Hq; [|discriminate].
      exists (Fin q). split; [reflexivity|]. split; [exists q; split; reflexivity|exact H].
    + exists NegInf. split; [reflexivity|]. split; [reflexivity|exact H].
Qed.

Lemma scenario_values_inv cbc l b h log s' V :
  calculate_optimal_scenario_returns cbc l b (mkState h log) = (s', inr V) ->
  exists p1 p2 p3 v1 v2 v3,
    build_ideal_problem (deref h l) Best b = inr p1 /\
    build_ideal_problem (deref h l) Med b = inr p2 /\
    build_ideal_problem (deref h l) Worst b = inr p3 /\
    ideal_entry (cbc p1) (p_objective p1) v1 /\
    ideal_entry (cbc p2) (p_objective p2) v2 /\
    ideal_entry (cbc p3) (p_objective p3) v3 /\
    V = [(Best, v1); (Med, v2); (Worst, v3)] /\
    s' = mkState h (IdealSolve Worst p3 :: IdealSolve Med p2 :: IdealSolve Best p1 :: log).
Proof.
  unfold calculate_optimal_scenario_returns, scenarios. intros H.
  destruct (scenario_loop_step_inv _ _ _ _ _ _ _ _ _ _ H) as (p1 & v1 & Hb1 & He1 & H1).
  destruct (scenario_loop_step_inv _ _ _ _ _ _ _ _ _ _ H1) as (p2 & v2 & Hb2 & He2 & H2).
  destruct (scenario_loop_step_inv _ _ _ _ _ _ _ _ _ _ H2) as (p3 & v3 & Hb3 & He3 & H3).
  injection H3 as <- <-.
  exists p1, p2, p3, v1, v2, v3. repeat split; assumption.
Qed.

(** X5: when [calculate_optimal_scenario_returns] returns, it has called the
    solver exactly three times, on the knapsacks of [best], [med] and [worst]
    in this order, without touching the records; [V_j_star] has the keys
    [best], [med], [worst] in this order, and the value of each depends only
    on the solve of its own scenario: [-inf] when that solve raised or ended
    with a status other than [Optimal] (the loop then goes on with the next
    scenario), else the value of its objective. *)
Theorem scenario_values_per_solve cbc l total_budget h log s' V :
  calculate_optimal_scenario_returns cbc l total_budget (mkState h log) = (s', inr V) ->
  exists p1 p2 p3 v1 v2 v3,
    build_ideal_problem (deref h l) Best total_budget = inr p1 /\
    build_ideal_problem (deref h l) Med total_budget = inr p2 /\
    build_ideal_problem (deref h l) Worst total_budget = inr p3 /\
    ideal_entry (cbc p1) (p_objective p1) v1 /\
    ideal_entry (cbc p2) (p_objective p2) v2 /\
    ideal_entry (cbc p3) (p_objective p3) v3 /\
    V = [(Best, v1); (Med, v2); (Worst, v3)] /\
    s' = mkState h (IdealSolve Worst p3 :: IdealSolve Med p2 :: IdealSolve Best p1 :: log).
Proof. apply scenario_values_inv. Qed.

(** ** What the two LP problems encode *)

Lemma mapE_eff_terms inits s ts x :
  mapE (fun i => match eff_lookup i s with
                 | inl e => inl e
                 | inr v => inr (lp_mul (Select (i_id i)) v)
                 end) inits = inr ts ->
  sumQ (map (fun e => aff_eval e x) ts) ==
    sumQ (map (fun i => x (Select (i_id i)) * eff_val i s) inits) /\
  forall i, In i inits -> exists v, eff_lookup i s = inr v.
Proof.
  revert ts; induction inits as [|i inits IH]; intros ts H; simpl in H.
  - injection H as <-. split; [reflexivity|intros i []].
  - destruct (eff_lookup i s) as [e|v] eqn:Ei; [discriminate|].
    destruct (mapE _ inits) as [e|ts'] eqn:Er; [discriminate|].
    injection H as <-. destruct (IH ts' eq_refl) as [Hs Hall].
    split.
    + simpl. rewrite Hs, aff_eval_lp_mul. unfold eff_val at 2. rewrite Ei. reflexivity.
    + intros i' [<-|Hi']; [exists v; exact Ei|]. apply Hall. exact Hi'.
Qed.

Lemma lpSum_map_mul inits (f : initiative -> Q) x :
  aff_eval (lpSum (map (fun i => lp_mul (Select (i_id i)) (f i)) inits)) x ==
    sumQ (map (fun i => x (Select (i_id i)) * f i) inits).
Proof.
  rewrite aff_eval_lpSum, map_map. apply sumQ_map_ext. intros i _. apply aff_eval_lp_mul.
Qed.

Lemma in_map_select inits v :
  In v (map (fun i => Select (i_id i)) inits) <-> exists i, v = Select (i_id i) /\ In i inits.
Proof.
  rewrite in_map_iff. split; intros (i & H1 & H2); exists i; split; auto.
Qed.

Lemma binaries_iff inits (x : lpvar -> Q) :
  (forall v, In v (map (fun i => Select (i_id i)) inits) -> x v == 0 \/ x v == 1) <->
  (forall i, In i inits -> x (Select (i_id i)) == 0 \/ x (Select (i_id i)) == 1).
Proof.
  split.
  - intros H i Hi. apply H. apply in_map_select. exists i. split; [reflexivity|exact Hi].
  - intros H v Hv. apply in_map_select in Hv. destruct Hv as (i & -> & Hi). apply H. exact Hi.
Qed.

Lemma ideal_problem_inv inits s b p :
  build_ideal_problem inits s b = inr p ->
  p_sense p = LpMaximize /\
  (forall i, In i inits -> exists v, eff_lookup i s = inr v) /\
  forall x,
    aff_eval (p_objective p) x == sumQ (map (fun i => x (Select (i_id i)) * eff_val i s) inits) /\
    (feasible p x <->
       (forall i, In i inits -> x (Select (i_id i)) == 0 \/ x (Select (i_id i)) == 1) /\
       sumQ (map (fun i => x (Select (i_id i)) * cost i) inits) <= b).
Proof.
  unfold build_ideal_problem. intros H.
  destruct (mapE _ inits) as [e|ts] eqn:Hts; [discriminate|]. injection H as <-.
  split; [reflexivity|]. split; [intros i Hi; exact (proj2 (mapE_eff_terms _ _ _ (fun _ => 0) Hts) i Hi)|].
  intros x. split.
  - cbn [p_objective]. rewrite aff_eval_lpSum. exact (proj1 (mapE_eff_terms _ _ _ x Hts)).
  - unfold feasible. cbn [p_binaries p_nonneg p_constraints]. rewrite binaries_iff. split.
    + intros (Hb & _ & Hc). split; [exact Hb|].
      specialize (Hc _ (or_introl eq_refl)). unfold satisfies in Hc. cbn [c_expr c_sense c_rhs] in Hc.
      rewrite lpSum_map_mul in Hc. exact Hc.
    + intros (Hb & Hc). split; [exact Hb|]. split; [intros v []|].
      intros c [<-|[]]. unfold satisfies. cbn [c_expr c_sense c_rhs].
      rewrite lpSum_map_mul. exact Hc.
Qed.

(** X6: the problem [calculate_optimal_scenario_returns] builds for scenario
    [s] is the 0/1 knapsack of that scenario: it maximises, every record has
    [effective_returns[s]], its objective at a point [x] is the sum of
    [x[id] * effective_returns[s]] over the records, and [x] is feasible
    exactly when every [x[id]] is 0 or 1 and the sum of [x[id] * cost] is
    within [total_budget].  PuLP's dropping of zero coefficients and its
    merging of repeated ids change none of this. *)
Theorem ideal_problem_is_knapsack inits s total_budget p :
  build_ideal_problem inits s total_budget = inr p ->
  p_sense p = LpMaximize /\
  (forall i, In i inits -> exists v, eff_lookup i s = inr v) /\
  forall x,
    aff_eval (p_objective p) x == sumQ (map (fun i => x (Select (i_id i)) * eff_val i s) inits) /\
    (feasible p x <->
       (forall i, In i inits -> x (Select (i_id i)) == 0 \/ x (Select (i_id i)) == 1) /\
       sumQ (map (fun i => x (Select (i_id i)) * cost i) inits) <= total_budget).
Proof. apply ideal_problem_inv. Qed.

Lemma theta_row_inv inits V s c :
  theta_row inits V s = inr c ->
  exists v, dict_get V s = Some v /\ c_sense c = GE /\ c_rhs c = v /\
    forall x, aff_eval (c_expr c) x ==
              x Max_Regret + sumQ (map (fun i => x (Select (i_id i)) * eff_val i s) inits).
Proof.
  unfold theta_row. intros H.
  destruct (dict_get V s) as [v|]; [|discriminate].
  destruct (mapE _ inits) as [e|ts] eqn:Hts; [discriminate|]. injection H as <-.
  exists v. split; [reflexivity|]. split; [reflexivity|]. split; [reflexivity|].
  intros x. cbn [c_expr]. rewrite aff_eval_add, aff_eval_lpSum.
  rewrite (proj1 (mapE_eff_terms _ _ _ x Hts)). simpl. ring.
Qed.

Lemma main_problem_inv inits V b fl p :
  build_main_problem inits V b fl = inr p ->
  (forall s, exists v, dict_get V s = Some (Fin v)) ->
  p_sense p = LpMinimize /\
  forall x,
    aff_eval (p_objective p) x == x Max_Regret /\
    (feasible p x <->
       (forall i, In i inits -> x (Select (i_id i)) == 0 \/ x (Select (i_id i)) == 1) /\
       0 <= x Max_Regret /\
       (forall s v, dict_get V s = Some (Fin v) ->
          v <= x Max_Regret + sumQ (map (fun i => x (Select (i_id i)) * eff_val i s) inits)) /\
       sumQ (map (fun i => x (Select (i_id i)) * cost i) inits) <= b /\
       fl <= sumQ (map (fun i => x (Select (i_id i)) * R_worst i) inits)).
Proof.
  unfold build_main_problem. intros H Hfin.
  destruct (mapE (theta_row inits V) scenarios) as [e|rows] eqn:Hrows; [discriminate|].
  injection H as <-. split; [reflexivity|]. intros x.
  split; [cbn [p_objective aff_eval fold_right fst snd]; ring|].
  unfold feasible. cbn [p_binaries p_nonneg p_constraints]. rewrite binaries_iff. split.
  - intros (Hb & Hn & Hc). split; [exact Hb|].
    split; [apply Hn; left; reflexivity|].
    split; [|split].
    + intros s v Hv.
      destruct (mapE_In_rev _ _ _ s Hrows (scenarios_complete s)) as (c & Hc' & Hin).
      destruct (theta_row_inv _ _ _ _ Hc') as (v' & Hv' & Hs & Hr & He).
      rewrite Hv in Hv'. injection Hv' as <-.
      specialize (Hc c (in_or_app _ _ _ (or_introl Hin))). unfold satisfies in Hc.
      rewrite Hs, Hr in Hc. rewrite <- He. exact Hc.
    + specialize (Hc _ ltac:(apply in_or_app; right; left; reflexivity)).
      unfold satisfies in Hc. cbn [c_expr c_sense c_rhs] in Hc. rewrite lpSum_map_mul in Hc.
      exact Hc.
    + specialize (Hc _ ltac:(apply in_or_app; right; right; left; reflexivity)).
      unfold satisfies in Hc. cbn [c_expr c_sense c_rhs] in Hc. rewrite lpSum_map_mul in Hc.
      exact Hc.
  - intros (Hb & Hn & Hth & Hcost & Hfl). split; [exact Hb|].
    split; [intros v [<-|[]]; exact Hn|].
    intros c Hc. apply in_app_or in Hc. destruct Hc as [Hc|[<-|[<-|[]]]].
    + destruct (mapE_In _ _ _ _ Hrows Hc) as (s & _ & Hc').
      destruct (theta_row_inv _ _ _ _ Hc') as (v' & Hv' & Hs & Hr & He).
      destruct (Hfin s) as [v Hv]. rewrite Hv in Hv'. injection Hv' as <-.
      unfold satisfies. rewrite Hs, Hr, He. apply Hth. exact Hv.
    + unfold satisfies. cbn [c_expr c_sense c_rhs]. rewrite lpSum_map_mul. exact Hcost.
    + unfold satisfies. cbn [c_expr c_sense c_rhs]. rewrite lpSum_map_mul. exact Hfl.
Qed.

(** X7: when every [V_j_star[s]] is finite, the minimax problem the code
    builds minimises [theta] (Max_Regret), and a point [x] is feasible
    exactly when every [x[id]] is 0 or 1, [theta >= 0], for each scenario
    [theta >= V_j_star[s] - sum of x[id] * effective_returns[s]], the sum of
    [x[id] * cost] is within [total_budget], and the sum of
    [x[id] * R_worst] reaches [min_portfolio_worst_return]. *)
Theorem main_problem_is_minimax_regret inits V total_budget min_portfolio_worst_return p :
  build_main_problem inits V total_budget min_portfolio_worst_return = inr p ->
  (forall s, exists v, dict_get V s = Some (Fin v)) ->
  p_sense p = LpMinimize /\
  forall x,
    aff_eval (p_objective p) x == x Max_Regret /\
    (feasible p x <->
       (forall i, In i inits -> x (Select (i_id i)) == 0 \/ x (Select (i_id i)) == 1) /\
       0 <= x Max_Regret /\
       (forall s v, dict_get V s = Some (Fin v) ->
          v <= x Max_Regret + sumQ (map (fun i => x (Select (i_id i)) * eff_val i s) inits)) /\
       sumQ (map (fun i => x (Select (i_id i)) * cost i) inits) <= total_budget /\
       min_portfolio_worst_return <= sumQ (map (fun i => x (Select (i_id i)) * R_worst i) inits)).
Proof. apply main_problem_inv. Qed.

(** ** Optimal runs against the problems they solve *)

Lemma main_problem_keys inits V b fl p :
  build_main_problem inits V b fl = inr p -> forall s, exists v, dict_get V s = Some v.
Proof.
  unfold build_main_problem. intros H s.
  destruct (mapE (theta_row inits V) scenarios) as [e|rows] eqn:Hrows; [discriminate|].
  destruct (mapE_In_rev _ _ _ s Hrows (scenarios_complete s)) as (c & Hc & _).
  destruct (theta_row_inv _ _ _ _ Hc) as (v & Hv & _). exists v. exact Hv.
Qed.

Lemma objective_value_some e vals q :
  objective_value e vals = Some q -> affine_value e vals = Some q.
Proof. destruct e; [discriminate|exact (fun H => H)]. Qed.

Lemma affine_value_reports e vals x q :
  affine_value e vals = Some q -> reports_point vals x -> q == aff_eval e x.
Proof.
  unfold affine_value. intros H Hr.
  assert (Hnone : forall e', fold_left (fun acc t =>
      match acc, vals (fst t) with
      | Some s, Some y => Some (s + y * snd t)
      | _, _ => None
      end) e' None = None).
  { induction e' as [|t e' IH]; [reflexivity|exact IH]. }
  assert (Hg : forall a q, fold_left (fun acc t =>
      match acc, vals (fst t) with
      | Some s, Some y => Some (s + y * snd t)
      | _, _ => None
      end) e (Some a) = Some q -> q == a + aff_eval e x).
  { clear H. induction e as [|t e IH]; intros a q' Hf; simpl in Hf.
    - injection Hf as <-. simpl. ring.
    - destruct (vals (fst t)) as [y|] eqn:Hy; [|rewrite Hnone in Hf; discriminate].
      rewrite (IH _ _ Hf). simpl. rewrite (Hr _ _ Hy). ring. }
  rewrite (Hg 0 q H). ring.
Qed.

Lemma binary_costs_nonneg (x : lpvar -> Q) l :
  (forall i, In i l -> x (Select (i_id i)) == 0 \/ x (Select (i_id i)) == 1) ->
  (forall i, In i l -> 0 <= cost i) ->
  0 <= sumQ (map (fun i => x (Select (i_id i)) * cost i) l).
Proof.
  intros Hb Hc. apply sumQ_nonneg. intros q Hq. apply in_map_iff in Hq.
  destruct Hq as (i & <- & Hi). specialize (Hc i Hi).
  destruct (Hb i Hi) as [E|E]; rewrite E; lra.
Qed.

Lemma sumQ_map_zero {A} (f : A -> Q) l : sumQ (map (fun a => 0 * f a) l) == 0.
Proof. apply sumQ_zero. intros q Hq. apply in_map_iff in Hq. destruct Hq as (a & <- & _). ring. Qed.

(** An [Optimal] answer of an exact solver on a knapsack bounds the value of
    every 0/1 point within the budget. *)
Lemma ideal_value_bound cbc inits s b p v (y : lpvar -> Q) :
  exact_solver cbc ->
  build_ideal_problem inits s b = inr p ->
  ideal_entry (cbc p) (p_objective p) (Fin v) ->
  (forall i, In i inits -> y (Select (i_id i)) == 0 \/ y (Select (i_id i)) == 1) ->
  sumQ (map (fun i => y (Select (i_id i)) * cost i) inits) <= b ->
  sumQ (map (fun i => y (Select (i_id i)) * eff_val i s) inits) <= v.
Proof.
  intros Hex Hp He Hb Hc.
  destruct (ideal_problem_inv _ _ _ _ Hp) as (Hsense & _ & Hx).
  unfold ideal_entry in He. destruct (cbc p) as [msg|st vals] eqn:Hcbc; [discriminate|].
  destruct (is_optimal st) eqn:Ho; [|discriminate].
  destruct He as (q & Hq & Hv). injection Hv as <-.
  destruct (Hex _ _ _ Hcbc Ho) as (xs & (Hfs & Hopt) & Hrep).
  assert (Hfy : feasible p y) by (apply (proj2 (Hx y)); split; assumption).
  specialize (Hopt y Hfy). rewrite Hsense in Hopt.
  rewrite (affine_value_reports _ _ _ _ (objective_value_some _ _ _ Hq) Hrep).
  rewrite <- (proj1 (Hx y)). exact Hopt.
Qed.

(** A sound solver never answers [Optimal] on a knapsack with a negative
    budget and non-negative costs. *)
Lemma ideal_entry_negative_budget cbc inits s b p v :
  sound_solver cbc -> b < 0 -> (forall i, In i inits -> 0 <= cost i) ->
  build_ideal_problem inits s b = inr p ->
  ideal_entry (cbc p) (p_objective p) v -> v = NegInf.
Proof.
  intros Hs Hb Hc Hp He.
  destruct (ideal_problem_inv _ _ _ _ Hp) as (_ & _ & Hx).
  unfold ideal_entry in He. destruct (cbc p) as [msg|st vals] eqn:Hcbc; [exact He|].
  destruct (is_optimal st) eqn:Ho; [|exact He].
  destruct (Hs _ _ _ Hcbc Ho) as (x & Hf & _).
  apply (proj1 (proj2 (Hx x))) in Hf. destruct Hf as [Hbin Hcost].
  pose proof (binary_costs_nonneg x _ Hbin Hc). lra.
Qed.

Lemma deref_In h l j : In j (deref h l) -> exists k, In k l /\ nth_error h k = Some j.
Proof.
  induction l as [|k l IH]; simpl; [intros []|].
  destruct (nth_error h k) as [i|] eqn:Hk.
  - intros [<-|Hj]; [exists k; split; [left; reflexivity|exact Hk]|].
    destruct (IH Hj) as (k' & Hk' & Hn). exists k'. split; [right; exact Hk'|exact Hn].
  - intros Hj. destruct (IH Hj) as (k' & Hk' & Hn). exists k'. split; [right; exact Hk'|exact Hn].
Qed.

Lemma exact_sound cbc : exact_solver cbc -> sound_solver cbc.
Proof.
  intros He p st vals Hc Ho. destruct (He p st vals Hc Ho) as (x & [Hf _] & Hr).
  exists x. split; assumption.
Qed.

Lemma scenario_values_negative_budget cbc l b h log s' V :
  sound_solver cbc -> b < 0 -> (forall i, In i (deref h l) -> 0 <= cost i) ->
  calculate_optimal_scenario_returns cbc l b (mkState h log) = (s', inr V) ->
  V = [(Best, NegInf); (Med, NegInf); (Worst, NegInf)].
Proof.
  intros Hs Hb Hc H.
  destruct (scenario_values_inv _ _ _ _ _ _ _ H)
    as (p1 & p2 & p3 & v1 & v2 & v3 & B1 & B2 & B3 & E1 & E2 & E3 & -> & _).
  rewrite (ideal_entry_negative_budget _ _ _ _ _ _ Hs Hb Hc B1 E1),
          (ideal_entry_negative_budget _ _ _ _ _ _ Hs Hb Hc B2 E2),
          (ideal_entry_negative_budget _ _ _ _ _ _ Hs Hb Hc B3 E3).
  reflexivity.
Qed.

(** X8: with a negative [total_budget] and records of non-negative cost, a
    solver that answers [Optimal] only with feasible points never answers
    [Optimal] in [calculate_optimal_scenario_returns]: when the function
    returns, every value of [V_j_star] is [-inf]. *)
Theorem negative_budget_no_ideal_value cbc l total_budget h log s' V :
  sound_solver cbc -> total_budget < 0 -> (forall i, In i (deref h l) -> 0 <= cost i) ->
  calculate_optimal_scenario_returns cbc l total_budget (mkState h log) = (s', inr V) ->
  V = [(Best, NegInf); (Med, NegInf); (Worst, NegInf)].
Proof. apply scenario_values_negative_budget. Qed.

(** X9: with a negative [total_budget], records of non-negative cost and a
    solver that answers [Optimal] only with feasible points, a run that
    returns reports "No Eligible Initiatives", or "Error in V_j_star
    calculation" with [-inf] for all three scenarios; in both cases the
    minimax problem is never built and never solved: no main solve is in
    the solve log. *)
Theorem negative_budget_run_reports_error cbc h refs total_budget min_confidence_threshold
    min_portfolio_worst_return pf s1 r :
  sound_solver cbc -> total_budget < 0 -> (forall i, In i h -> 0 <= cost i) ->
  run cbc h refs total_budget min_confidence_threshold min_portfolio_worst_return pf
    = (s1, inr r) ->
  (r = no_eligible_result /\ solve_log s1 = []) \/
  (r = failure_result "Error in V_j_star calculation"
         [(Best, NegInf); (Med, NegInf); (Worst, NegInf)] /\
   forall p, ~ In (MainSolve p) (solve_log s1)).
Proof.
  intros Hs Hb Hc H.
  unfold run, solve_minimax_regret_optimization in H.
  split_bind_as H sa el Hfil. rewrite filter_eligible_eq in Hfil.
  destruct (refs_valid h refs); [|discriminate]. injection Hfil as <- <-.
  destruct (filter (is_eligible min_confidence_threshold h) refs) as [|k ks].
  { injection H as <- <-. left; split; reflexivity. }
  right.
  split_bind_as H sb pr Hce. split_bind_as H sc V Hsl.
  unfold calculate_effective_returns, bind in Hce.
  destruct (for_each (process_initiative pf) (k :: ks) (mkState h [])) as [s2 [e|u]] eqn:E;
    [discriminate|].
  injection Hce as <- <-.
  pose proof (for_each_ok_inv _ _ _ _ _ _ E) as Hok.
  destruct (for_each_success pf _ h [] Hok) as (h2 & E2 & Hh2).
  rewrite E in E2. injection E2 as -> _.
  assert (Hc2 : forall i, In i (deref h2 (k :: ks)) -> 0 <= cost i).
  { intros j Hj. destruct (deref_In _ _ _ Hj) as (k' & Hk' & Hn).
    destruct (Hh2 k' Hk') as (i & g & Hi & _ & Hi2). rewrite Hn in Hi2. injection Hi2 as ->.
    exact (Hc i (nth_error_In _ _ Hi)). }
  rewrite (scenario_values_negative_budget _ _ _ _ _ _ _ Hs Hb Hc2 Hsl) in H.
  cbn [existsb is_neginf snd orb] in H. unfold ret in H. injection H as <- <-.
  split; [reflexivity|].
  unfold calculate_optimal_scenario_returns in Hsl.
  destruct (scenario_loop_state _ _ _ _ _ _ _ _ Hsl) as (_ & calls & Hlog & Hcalls).
  rewrite Hlog, app_nil_r. intros p. exact (not_main_call_in _ _ Hcalls).
Qed.

(** X12: when the solver answers [Optimal] only with optimal points and
    [total_budget >= 0], every finite value of [V_j_star] is non-negative
    (selecting nothing is a point of each knapsack). *)
Theorem ideal_values_nonneg cbc l total_budget h log s' V :
  exact_solver cbc -> 0 <= total_budget ->
  calculate_optimal_scenario_returns cbc l total_budget (mkState h log) = (s', inr V) ->
  forall s q, dict_get V s = Some (Fin q) -> 0 <= q.
Proof.
  intros Hexact Hb H s q Hq.
  destruct (scenario_values_inv _ _ _ _ _ _ _ H)
    as (p1 & p2 & p3 & v1 & v2 & v3 & B1 & B2 & B3 & E1 & E2 & E3 & -> & _).
  assert (Hbin : forall i, In i (deref h l) ->
            (fun _ : lpvar => 0) (Select (i_id i)) == 0 \/ (fun _ : lpvar => 0) (Select (i_id i)) == 1)
    by (intros; left; reflexivity).
  assert (Hcost : sumQ (map (fun i => (fun _ : lpvar => 0) (Select (i_id i)) * cost i) (deref h l))
                  <= total_budget)
    by (cbv beta; rewrite sumQ_map_zero; exact Hb).
  assert (Hz : forall sc, sumQ (map (fun i => (fun _ : lpvar => 0) (Select (i_id i)) * eff_val i sc)
                                  (deref h l)) == 0)
    by (intros sc; cbv beta; apply sumQ_map_zero).
  destruct s; cbn in Hq; injection Hq as ->.
  - rewrite <- (Hz Best). exact (ideal_value_bound _ _ _ _ _ _ _ Hexact B1 E1 Hbin Hcost).
  - rewrite <- (Hz Med). exact (ideal_value_bound _ _ _ _ _ _ _ Hexact B2 E2 Hbin Hcost).
  - rewrite <- (Hz Worst). exact (ideal_value_bound _ _ _ _ _ _ _ Hexact B3 E3 Hbin Hcost).
Qed.

(** ** The solver of the instances *)

Lemma feasibleb_sound p x : feasibleb p x = true -> feasible p x.
Proof.
  unfold feasibleb. rewrite !andb_true_iff, !forallb_forall. intros ((Hb & Hn) & Hc).
  split; [|split].
  - intros v Hv. specialize (Hb v Hv). apply orb_true_iff in Hb.
    destruct Hb as [E|E]; apply Qeq_bool_iff in E; [left|right]; exact E.
  - intros v Hv. apply Qle_bool_iff. exact (Hn v Hv).
  - intros c Hin. specialize (Hc c Hin). unfold satisfiesb in Hc. unfold satisfies.
    destruct (c_rhs c), (c_sense c); try apply Qle_bool_iff; try exact Hc; try discriminate.
    exact I.
Qed.

Lemma aff_eval_zero e : aff_eval e (fun _ => 0) == 0.
Proof. induction e as [|t e IH]; simpl; [reflexivity|]. rewrite IH. ring. Qed.

Lemma aff_eval_terms_nonneg e y :
  (forall t, In t e -> 0 <= y (fst t) * snd t) -> 0 <= aff_eval e y.
Proof.
  induction e as [|t e IH]; intros H; simpl; [apply Qle_refl|].
  pose proof (H t (or_introl eq_refl)). assert (0 <= aff_eval e y) by (apply IH; intros; apply H; right; assumption).
  lra.
Qed.

Lemma aff_eval_terms_nonpos e y :
  (forall t, In t e -> y (fst t) * snd t <= 0) -> aff_eval e y <= 0.
Proof.
  induction e as [|t e IH]; intros H; simpl; [apply Qle_refl|].
  pose proof (H t (or_introl eq_refl)). assert (aff_eval e y <= 0) by (apply IH; intros; apply H; right; assumption).
  lra.
Qed.

Lemma cbc_zero_exact : exact_solver cbc_zero.
Proof.
  intros p st vals H Ho. unfold cbc_zero in H.
  destruct (feasibleb p (fun _ => 0) && zero_optimalb p) eqn:E;
    [|injection H as <- _; discriminate].
  injection H as <- <-. apply andb_true_iff in E. destruct E as [Ef Ez].
  exists (fun _ => 0). split; [split|].
  - apply feasibleb_sound. exact Ef.
  - intros y (Hb & Hn & _).
    unfold zero_optimalb in Ez. rewrite forallb_forall in Ez.
    assert (Hy : forall t, In t (p_objective p) -> 0 <= y (fst t)).
    { intros t Ht. specialize (Ez t Ht). apply andb_true_iff in Ez. destruct Ez as [Ev _].
      apply existsb_exists in Ev. destruct Ev as (v & Hv & Heq). apply lpvar_eqb_eq in Heq.
      rewrite Heq. apply in_app_or in Hv. destruct Hv as [Hv|Hv].
      - destruct (Hb v Hv) as [E|E]; rewrite E; lra.
      - exact (Hn v Hv). }
    destruct (p_sense p) eqn:Hs.
    + rewrite aff_eval_zero. apply aff_eval_terms_nonpos. intros t Ht. pose proof (Hy t Ht).
      specialize (Ez t Ht). apply andb_true_iff in Ez.
      destruct Ez as [_ Ec]. apply Qle_bool_iff in Ec. nra.
    + rewrite aff_eval_zero. apply aff_eval_terms_nonneg. intros t Ht. pose proof (Hy t Ht).
      specialize (Ez t Ht). apply andb_true_iff in Ez.
      destruct Ez as [_ Ec]. apply Qle_bool_iff in Ec. nra.
  - intros v q Hq. injection Hq as <-. reflexivity.
Qed.

(** ** Instances of the further properties on concrete inputs *)

(** X2 on the records of the end-to-end scenario. *)
Lemma calculate_effective_returns_idempotent_witness :
  exists h', calculate_effective_returns calculate_gamma example_refs (mkState h' []) =
             (mkState h' [], inr example_refs).
Proof.
  destruct (calculate_effective_returns calculate_gamma example_refs (mkState example_heap []))
    as [[h' log'] r] eqn:E.
  pose proof E as E'. vm_compute in E'. injection E' as _ <- <-.
  exists h'. exact (calculate_effective_returns_idempotent _ _ _ _ _ E).
Defined.

(** X3 with [A] (confidence 1.0) before [B] (confidence 2.0). *)
Lemma calculate_effective_returns_partial_witness :
  exists h' e, calculate_effective_returns calculate_gamma [0; 1]%nat (mkState mixed_heap []) =
               (mkState h' [], inl e).
Proof.
  destruct (calculate_effective_returns_partial calculate_gamma [0%nat] 1 [] mixed_heap []
              overconfident_B (ValueError "Confidence score must be between 0 and 1."))
    as (h' & E & _).
  - intros k' Hk'. in_cases Hk'. do 2 eexists. split; reflexivity.
  - reflexivity.
  - reflexivity.
  - exists h', (ValueError "Confidence score must be between 0 and 1."). exact E.
Defined.

(** X4 on the same two records, both eligible at the threshold 0.3. *)
Lemma penalty_error_aborts_run_witness :
  exists s e, run cbc_zero mixed_heap [0; 1]%nat 15 (3 # 10) 40 calculate_gamma = (s, inl e) /\
              solve_log s = [].
Proof.
  destruct (penalty_error_aborts_run cbc_zero mixed_heap [0; 1]%nat 15 (3 # 10) 40 calculate_gamma
              1 overconfident_B (ValueError "Confidence score must be between 0 and 1."))
    as (s & e & _ & _ & E & Hl & _).
  - reflexivity.
  - right. left. reflexivity.
  - vm_compute. reflexivity.
  - reflexivity.
  - reflexivity.
  - exists s, e. split; assumption.
Defined.

(** X5 on the processed record [A] of cost 1. *)
Lemma scenario_values_per_solve_witness :
  exists s' V v1 v2 v3,
    calculate_optimal_scenario_returns cbc_all_zero [0%nat] 1 (mkState paid_heap []) = (s', inr V) /\
    V = [(Best, v1); (Med, v2); (Worst, v3)].
Proof.
  destruct (calculate_optimal_scenario_returns cbc_all_zero [0%nat] 1 (mkState paid_heap []))
    as [s' [e|V]] eqn:E; [vm_compute in E; discriminate|].
  destruct (scenario_values_per_solve _ _ _ _ _ _ _ E)
    as (p1 & p2 & p3 & v1 & v2 & v3 & _ & _ & _ & _ & _ & _ & HV & _).
  exists s', V, v1, v2, v3. split; [reflexivity|exact HV].
Defined.

(** X6 on the knapsack of [best] for [A] of cost 1 and the budget 1. *)
Lemma ideal_problem_is_knapsack_witness :
  exists p, build_ideal_problem [paid_A] Best 1 = inr p /\ p_sense p = LpMaximize.
Proof.
  destruct (build_ideal_problem [paid_A] Best 1) as [e|p] eqn:E; [discriminate|].
  exists p. split; [reflexivity|]. exact (proj1 (ideal_problem_is_knapsack _ _ _ _ E)).
Defined.

(** X7 on the minimax problem for [A] with finite values 10, 5 and 2. *)
Lemma main_problem_is_minimax_regret_witness :
  exists p, build_main_problem [paid_A] [(Best, Fin 10); (Med, Fin 5); (Worst, Fin 2)] 1 0 = inr p /\
            p_sense p = LpMinimize.
Proof.
  destruct (build_main_problem [paid_A] [(Best, Fin 10); (Med, Fin 5); (Worst, Fin 2)] 1 0)
    as [e|p] eqn:E; [discriminate|].
  exists p. split; [reflexivity|].
  refine (proj1 (main_problem_is_minimax_regret _ _ _ _ _ E _)).
  intros []; eexists; reflexivity.
Defined.

(** X8 on [A] of cost 1 with the budget -1. *)
Lemma negative_budget_no_ideal_value_witness :
  exists s' V, calculate_optimal_scenario_returns cbc_zero [0%nat] (-1) (mkState paid_heap []) =
               (s', inr V) /\ V = [(Best, NegInf); (Med, NegInf); (Worst, NegInf)].
Proof.
  destruct (calculate_optimal_scenario_returns cbc_zero [0%nat] (-1) (mkState paid_heap []))
    as [s' [e|V]] eqn:E; [vm_compute in E; discriminate|].
  exists s', V. split; [reflexivity|].
  apply (negative_budget_no_ideal_value cbc_zero [0%nat] (-1) paid_heap [] s' V).
  - apply exact_sound. exact cbc_zero_exact.
  - lra.
  - intros i Hi. in_cases Hi. cbn. lra.
  - exact E.
Defined.

(** X9 on the end-to-end scenario with the budget -1. *)
Lemma negative_budget_run_reports_error_witness :
  exists s1 r, run cbc_zero example_heap example_refs (-1) (3 # 10) 40 calculate_gamma = (s1, inr r) /\
    ((r = no_eligible_result /\ solve_log s1 = []) \/
     (r = failure_result "Error in V_j_star calculation"
            [(Best, NegInf); (Med, NegInf); (Worst, NegInf)] /\
      forall p, ~ In (MainSolve p) (solve_log s1))).
Proof.
  destruct (run cbc_zero example_heap example_refs (-1) (3 # 10) 40 calculate_gamma)
    as [s1 [e|r]] eqn:E; [vm_compute in E; discriminate|].
  exists s1, r. split; [reflexivity|].
  apply (negative_budget_run_reports_error cbc_zero example_heap example_refs (-1) (3 # 10) 40
           calculate_gamma s1 r).
  - apply exact_sound. exact cbc_zero_exact.
  - lra.
  - intros i Hi. in_cases Hi; cbn; lra.
  - exact E.
Defined.

(** X12 on the record [D] with the budget 10. *)
Lemma ideal_values_nonneg_witness :
  exists s' V, calculate_optimal_scenario_returns cbc_zero [0%nat] 10 (mkState loss_heap []) =
               (s', inr V) /\ forall s q, dict_get V s = Some (Fin q) -> 0 <= q.
Proof.
  destruct (calculate_optimal_scenario_returns cbc_zero [0%nat] 10 (mkState loss_heap []))
    as [s' [e|V]] eqn:E; [vm_compute in E; discriminate|].
  exists s', V. split; [reflexivity|].
  apply (ideal_values_nonneg cbc_zero [0%nat] 10 loss_heap [] s' V cbc_zero_exact); [lra|exact E].
Defined.
